(** * typed-immutable-record: [makeTypedFactory], [recordify] and [fromJS]

    A shallow embedding of [src/typed.factory.ts].  JavaScript objects and
    arrays are mutable and shared by reference, so they live in an explicit
    store of cells; a value is a scalar, a reference into the store, or one
    of the two persistent values the record engine builds (an ordered
    sequence, a record).  [fromJS] is a state-passing function over that
    store.  It recurses on the input data, which may be cyclic in the store,
    so it takes fuel and [OutOfFuel] stands for a call that has not returned.

    Conventions of the embedding:
    - an object is the finite map of its own enumerable properties; members
      inherited from a prototype are not part of the model, so property and
      factory names are assumed not to be names such as [toString];
    - numbers are integers;
    - the record engine (the [immutable] package) is not part of the
      repository: its constructor, its sequence type and [toJS] are
      modelled from the specification, each marked as such. *)

From stdpp Require Import gmap strings list fin_maps pretty.
From Stdlib Require Import ZArith.

#[local] Set Warnings "-register-all".

(** ** Values and the store *)

Abbreviation loc := nat (only parsing).

Inductive value : Type :=
| VUndef
| VNull
| VBool (b : bool)
| VNum (n : Z)
| VStr (s : string)
| VRef (l : loc)                       (* a plain object or an array, by reference *)
| VList (items : list value)           (* the engine's persistent sequence *)
| VRec (fields : gmap string value).   (* a record instance of the engine *)

Inductive cell : Type :=
| CObj (props : gmap string value)
| CArr (items : list value).

Abbreviation store := (list cell).

Inductive error : Type :=
| TypeError
| NoFactory (facName : string).        (* Error(`No factory found for ${facName}`) *)

(** What a call leaves behind: a result or an exception, each with the
    store at that point, or nothing yet. *)
Inductive outcome (A : Type) : Type :=
| Ret (h : store) (a : A)
| Throw (h : store) (e : error)
| OutOfFuel.
Arguments Ret {A} h a.
Arguments Throw {A} h e.
Arguments OutOfFuel {A}.

Definition bind {A B} (o : outcome A) (k : store → A → outcome B) : outcome B :=
  match o with
  | Ret h a => k h a
  | Throw h e => Throw h e
  | OutOfFuel => OutOfFuel
  end.

Definition final_store {A} (o : outcome A) : option store :=
  match o with
  | Ret h _ | Throw h _ => Some h
  | OutOfFuel => None
  end.

(** A factory is a record constructor: it reads its argument in the store
    and builds a persistent value, or throws. *)
Definition factory : Type := store → value → error + value.

(** One entry of the factory tree, [{descriptor, factory}].  Either member
    may be [undefined]. *)
Record entry : Type := Entry {
  descriptor : option (list (string * string));
  factory_of : option factory
}.

(** ** JavaScript primitives used by the source *)

(** Index properties ["0"], ["1"], ... of an array (or of a string). *)
Definition arrayProps (xs : list value) : gmap string value :=
  list_to_map (imap (λ i x, (pretty i, x)) xs).

Definition stringChars (s : string) : list value :=
  (λ c, VStr (String c EmptyString)) <$> String.list_ascii_of_string s.

(** Own enumerable properties, as [Object.assign] and [Object.keys] see
    them.  The internal slots of the engine's values are not modelled.  A
    reference outside the store does not arise in a run; it reads as an
    object without properties. *)
Definition ownProps (h : store) (v : value) : gmap string value :=
  match v with
  | VRef l =>
      match h !! l with
      | Some (CObj m) => m
      | Some (CArr xs) => arrayProps xs
      | None => ∅
      end
  | VStr s => arrayProps (stringChars s)
  | _ => ∅
  end.

(** [obj[key]].  Reading a property of [null] or [undefined] throws. *)
Definition get (h : store) (obj : value) (key : string) : error + value :=
  match obj with
  | VUndef | VNull => inl TypeError
  | VBool _ | VNum _ => inr VUndef
  | VStr s =>
      inr (if decide (key = "length") then VNum (Z.of_nat (String.length s))
           else default VUndef (arrayProps (stringChars s) !! key))
  | VRef l =>
      match h !! l with
      | Some (CObj m) => inr (default VUndef (m !! key))
      | Some (CArr xs) =>
          inr (if decide (key = "length") then VNum (Z.of_nat (length xs))
               else default VUndef (arrayProps xs !! key))
      | None => inr VUndef
      end
  | VList xs =>
      inr (if decide (key = "size") then VNum (Z.of_nat (length xs)) else VUndef)
  | VRec m => inr (default VUndef (m !! key))
  end.

(** [Array.isArray(v)], giving the elements. *)
Definition arrayItems (h : store) (v : value) : option (list value) :=
  match v with
  | VRef l => match h !! l with Some (CArr xs) => Some xs | _ => None end
  | _ => None
  end.

(** [typeof v === 'object']: true of objects, arrays, the engine's values,
    and of [null]. *)
Definition typeofObject (v : value) : bool :=
  match v with
  | VNull | VRef _ | VList _ | VRec _ => true
  | _ => false
  end.

(** JavaScript truthiness. *)
Definition truthy (v : value) : bool :=
  match v with
  | VUndef | VNull => false
  | VBool b => b
  | VNum n => negb (n =? 0)%Z
  | VStr s => negb (String.eqb s EmptyString)
  | _ => true
  end.

Definition alloc (h : store) (c : cell) : store * loc := (h ++ [c], length h).

(** [o[key] = v] on a plain object. *)
Definition setProp (h : store) (l : loc) (key : string) (v : value) : store :=
  match h !! l with
  | Some (CObj m) => <[l := CObj (<[key := v]> m)]> h
  | _ => h
  end.

(** [R.merge({}, obj)]: a new object holding the own properties of [obj]
    (nothing for [null], [undefined], a number or a boolean).  The empty
    literal passed as first argument is never referenced again and is not
    given a cell. *)
Definition merge_empty (h : store) (obj : value) : store * loc :=
  alloc h (CObj (ownProps h obj)).

(** ** The record engine *)

(** A field of a new record: the value given for it if the key is present
    in the argument, the default otherwise; keys outside the template are
    dropped. *)
Definition pick (d v : option value) : option value :=
  match d with
  | Some d' => Some (default d' v)
  | None => None
  end.

(** Modelled from the spec: the record constructor of the persistent map
    engine, [new (Record(defaults, name))(values)], which is not part of the
    repository.  The spec (4.1) fixes the record's key set to the
    template's, and lets a field absent from the argument fall back to the
    template's default, by top-level presence only.  The argument is absent,
    [null], or a plain object; the engine rejects anything else.  The name
    is diagnostic only. *)
Definition newRecord (defaults : value) (name : option string) : factory :=
  λ h values,
    match defaults with
    | VUndef | VNull => inl TypeError
    | _ =>
        let template := ownProps h defaults in
        match values with
        | VUndef | VNull => inr (VRec template)
        | VRef l =>
            match h !! l with
            | Some (CObj m) => inr (VRec (merge pick template m))
            | _ => inl TypeError
            end
        | _ => inl TypeError
        end
    end.

(** Modelled from the spec: [List(array)], the engine's "ordered persistent
    sequence type for list-valued fields" (6), built from the elements of an
    array in their order. *)
Definition List (items : list value) : value := VList items.

(** ** [makeTypedFactory] and [recordify] *)

Definition makeTypedFactory (obj : value) (name : option string) : factory :=
  let ImmutableRecord := newRecord obj name in
  λ h val,
    let val := match val with VUndef => VNull | _ => val end in   (* val: E = null *)
    ImmutableRecord h val.

Definition recordify (h : store) (defaultVal val : value) (name : option string)
    : error + value :=
  let val := match val with VUndef => VNull | _ => val end in     (* val: E = null *)
  let TypedRecordFactory := makeTypedFactory defaultVal name in
  if truthy val then TypedRecordFactory h val else TypedRecordFactory h VUndef.

(** ** [fromJS] *)

(** [arr.map(entry => f(entry))], left to right, stopping at the first
    exception. *)
Fixpoint mapEntries (f : store → value → outcome value) (h : store)
    (entries : list value) : outcome (list value) :=
  match entries with
  | [] => Ret h []
  | entry :: rest =>
      bind (f h entry) (λ h1 r,
      bind (mapEntries f h1 rest) (λ h2 rs,
      Ret h2 (r :: rs)))
  end.

(** The loop [for (const key in descriptor) { ... }].  [self] is the
    recursive call [fromJS(_, facTree, _)]; [obj] is read, [partialRecord]
    is written. *)
Fixpoint convertFields (self : store → value → string → outcome value)
    (h : store) (obj : value) (partialRecord : loc)
    (descriptor : list (string * string)) : outcome unit :=
  match descriptor with
  | [] => Ret h ()
  | (key, nested) :: rest =>
      match get h obj key with
      | inl e => Throw h e
      | inr v =>
          match arrayItems h v with
          | Some entries =>
              bind (mapEntries (λ h' entry, self h' entry nested) h entries) (λ h1 rs,
              convertFields self (setProp h1 partialRecord key (List rs))
                obj partialRecord rest)
          | None =>
              if typeofObject v then
                bind (self h v nested) (λ h1 r,
                convertFields self (setProp h1 partialRecord key r)
                  obj partialRecord rest)
              else convertFields self h obj partialRecord rest
          end
      end
  end.

(** Lines 137-150: the working copy and its conversion, up to the call of
    the factory. *)
Definition buildPartial (self : store → value → string → outcome value)
    (h : store) (obj : value) (e : entry) : outcome loc :=
  let '(h1, partialRecord) := merge_empty h obj in
  match descriptor e with
  | Some d =>
      bind (convertFields self h1 obj partialRecord d) (λ h2 _,
      Ret h2 partialRecord)
  | None => Ret h1 partialRecord
  end.

Fixpoint fromJS (fuel : nat) (h : store) (obj : value)
    (facTree : gmap string entry) (facName : string) : outcome value :=
  match fuel with
  | 0 => OutOfFuel
  | S fuel' =>
      match facTree !! facName with
      | None => Throw h TypeError          (* facTree[facName] is undefined *)
      | Some e =>
          match factory_of e with
          | None => Throw h (NoFactory facName)
          | Some facRef =>
              bind (buildPartial (λ h' o n, fromJS fuel' h' o facTree n) h obj e)
                (λ h1 partialRecord,
                  match facRef h1 (VRef partialRecord) with
                  | inr r => Ret h1 r
                  | inl err => Throw h1 err
                  end)
          end
      end
  end.

(** ** Plain nested data, [toJS] and deep equality *)

(** A JSON-like tree: what a plain value looks like when it is read out of
    the store.  Objects are finite maps, so two trees are equal exactly
    when the values are deep-equal. *)
Inductive plain : Type :=
| PUndef
| PNull
| PBool (b : bool)
| PNum (n : Z)
| PStr (s : string)
| PArr (items : list plain)
| PObj (props : gmap string plain).

Definition sequence_map {A} (m : gmap string (option A)) : option (gmap string A) :=
  if decide (map_Forall (λ _ o, is_Some o) m) then Some (omap id m) else None.

Definition scalar_plain (v : value) : option plain :=
  match v with
  | VUndef => Some PUndef
  | VNull => Some PNull
  | VBool b => Some (PBool b)
  | VNum n => Some (PNum n)
  | VStr s => Some (PStr s)
  | _ => None
  end.

(** The tree of a plain value, following references at most [fuel] deep;
    [None] if the value is deeper, or is not plain data. *)
Fixpoint snapshot (fuel : nat) (h : store) (v : value) : option plain :=
  match v with
  | VRef l =>
      match fuel with
      | 0 => None
      | S fuel' =>
          match h !! l with
          | Some (CObj m) => PObj <$> sequence_map (snapshot fuel' h <$> m)
          | Some (CArr xs) => PArr <$> mapM (snapshot fuel' h) xs
          | None => None
          end
      end
  | VList _ | VRec _ => None
  | _ => scalar_plain v
  end.

(** Modelled from the spec: [toJS] of the record operation surface (4.4),
    implemented by the engine, "a full conversion back to plain nested data
    that recursively unwraps nested records into plain nested structures".
    The result is given as its tree; a plain object held by a record is
    returned as it is. *)
Fixpoint toJS (fuel : nat) (h : store) (v : value) : option plain :=
  match v with
  | VRec m =>
      match fuel with
      | 0 => None
      | S fuel' => PObj <$> sequence_map (toJS fuel' h <$> m)
      end
  | VList xs =>
      match fuel with
      | 0 => None
      | S fuel' => PArr <$> mapM (toJS fuel' h) xs
      end
  | _ => snapshot fuel h v
  end.

(** ** Inputs of finite nesting depth *)

Definition map_forallb {A} (f : string → A → bool) (m : gmap string A) : bool :=
  bool_decide (map_Forall (λ k x, Is_true (f k x)) m).

(** Everything [fromJS] can reach from [v] by property reads lies within
    [d] levels of references.  A cyclic object graph has no such [d]. *)
Fixpoint nested_within (d : nat) (h : store) (v : value) : bool :=
  match v with
  | VRef l =>
      match d with
      | 0 => false
      | S d' =>
          match h !! l with
          | Some (CObj m) => map_forallb (λ _ x, nested_within d' h x) m
          | Some (CArr xs) => forallb (nested_within d' h) xs
          | None => false
          end
      end
  | VRec m =>
      match d with
      | 0 => false
      | S d' => map_forallb (λ _ x, nested_within d' h x) m
      end
  | _ => true
  end.

(** ** Registries of typed factories, and inputs that match them *)

(** A record type of the registry: the location of its template object and
    its descriptor. *)
Record schema : Type := Schema {
  template : loc;
  nested : option (list (string * string))
}.

Definition registry (s : gmap string schema) : gmap string entry :=
  (λ sc, Entry (nested sc) (Some (makeTypedFactory (VRef (template sc)) None))) <$> s.

(** The scalars of JSON-like data: [null], booleans, numbers, strings. *)
Definition is_scalar (v : value) : bool :=
  match v with
  | VNull | VBool _ | VNum _ | VStr _ => true
  | _ => false
  end.

Definition descriptor_lookup (d : option (list (string * string))) (key : string)
    : option string :=
  d ≫= λ l, (list_to_map l : gmap string string) !! key.

(** [v] matches the record type [name] exactly, within [d] levels: it is
    an object with the template's keys, each descriptor field holds an
    object matching the nested type or an array of such objects, and every
    other field holds a scalar. *)
Fixpoint matches_shape (d : nat) (h : store) (s : gmap string schema)
    (name : string) (v : value) : bool :=
  match d with
  | 0 => false
  | S d' =>
      match s !! name, v with
      | Some sc, VRef l =>
          match h !! template sc, h !! l with
          | Some (CObj t), Some (CObj m) =>
              bool_decide (dom m = dom t)
              && bool_decide (NoDup (default [] (nested sc)).*1)
              && map_forallb (λ key x,
                   match descriptor_lookup (nested sc) key with
                   | Some nm =>
                       match arrayItems h x with
                       | Some entries =>
                           match d' with
                           | 0 => false
                           | S d'' => forallb (matches_shape d'' h s nm) entries
                           end
                       | None => matches_shape d' h s nm x
                       end
                   | None => is_scalar x
                   end) m
          | _, _ => false
          end
      | _, _ => false
      end
  end.

(** What [matches_shape] asks, within [d] levels, of the value [x] of a
    descriptor field converted with the nested type [nm]. *)
Definition field_matches (d : nat) (h : store) (s : gmap string schema)
    (nm : string) (x : value) : Prop :=
  match arrayItems h x with
  | Some entries =>
      ∃ d', d = S d' ∧ Forall (λ entry, matches_shape d' h s nm entry) entries
  | None => matches_shape d h s nm x
  end.

(** ** Store extension *)

(** [o] leaves every cell of [h] as it was: the store it ends with, if it
    ends, is [h] followed by new cells. *)
Definition grows {A} (h : store) (o : outcome A) : Prop :=
  ∀ h', final_store o = Some h' → h `prefix_of` h'.

(** ** Examples *)

Definition obj_of (l : list (string * value)) : cell := CObj (list_to_map l).
Definition rec_of (l : list (string * value)) : value := VRec (list_to_map l).

(** The worked example of the spec (8): a person with a list of pets.
    Cells 0-2 hold the templates, cells 3-5 the input
    [{name: 'Ann', pets: [{name: 'Rex', type: 'dog'}]}]. *)
Definition ex_store : store :=
  [ obj_of [("name", VStr ""); ("pets", VRef 1)];
    CArr [];
    obj_of [("name", VStr ""); ("type", VStr "")];
    obj_of [("name", VStr "Ann"); ("pets", VRef 4)];
    CArr [VRef 5];
    obj_of [("name", VStr "Rex"); ("type", VStr "dog")] ].

Definition ex_schema : gmap string schema :=
  list_to_map [ ("person", Schema 0 (Some [("pets", "pet")]));
                ("pet", Schema 2 None) ].

(** The factory tree of the source's doc comment: [person] refers to [pet]
    and, through [master], to itself.  Cells 0-2 hold the templates, the
    other cells hold inputs:
    3 [{name: 'Ann', master: {name: 'Bob'}}], 5 [{name: 'Ann', pet: null}],
    6 [{name: 'Ann', master: null}], 7 [{name: 'Ann', pet: [1]}],
    9 an object that is its own [master]. *)
Definition doc_store : store :=
  [ obj_of [("name", VStr ""); ("pet", VRef 1); ("master", VNull)];
    CArr [];
    obj_of [("name", VStr ""); ("type", VStr "")];
    obj_of [("name", VStr "Ann"); ("master", VRef 4)];
    obj_of [("name", VStr "Bob")];
    obj_of [("name", VStr "Ann"); ("pet", VNull)];
    obj_of [("name", VStr "Ann"); ("master", VNull)];
    obj_of [("name", VStr "Ann"); ("pet", VRef 8)];
    CArr [VNum 1];
    obj_of [("name", VStr "Ann"); ("master", VRef 9)] ].

Definition doc_schema : gmap string schema :=
  list_to_map [ ("person", Schema 0 (Some [("pet", "pet"); ("master", "person")]));
                ("pet", Schema 2 None) ].

(** Order preservation (8): descriptor [{items: 'item'}], input
    [{items: [{n: 1}, {n: 2}]}] in cells 3-6. *)
Definition items_store : store :=
  [ obj_of [("items", VRef 1)];
    CArr [];
    obj_of [("n", VNum 0)];
    obj_of [("items", VRef 4)];
    CArr [VRef 5; VRef 6];
    obj_of [("n", VNum 1)];
    obj_of [("n", VNum 2)] ].

Definition items_schema : gmap string schema :=
  list_to_map [ ("cart", Schema 0 (Some [("items", "item")]));
                ("item", Schema 2 None) ].

(** The store and the record [fromJS] gives for the worked example: the
    two working copies follow the input. *)
Definition ex_pet_record : value := rec_of [("name", VStr "Rex"); ("type", VStr "dog")].
Definition ex_record : value :=
  rec_of [("name", VStr "Ann"); ("pets", List [ex_pet_record])].
Definition ex_final : store :=
  ex_store ++ [ obj_of [("name", VStr "Ann"); ("pets", List [ex_pet_record])];
                obj_of [("name", VStr "Rex"); ("type", VStr "dog")] ].

Definition items_record : value :=
  rec_of [("items", List [rec_of [("n", VNum 1)]; rec_of [("n", VNum 2)]])].
Definition items_final : store :=
  items_store ++ [ obj_of [("items", List [rec_of [("n", VNum 1)]; rec_of [("n", VNum 2)]])];
                   obj_of [("n", VNum 1)];
                   obj_of [("n", VNum 2)] ].

Definition default_pet : value := rec_of [("name", VStr ""); ("type", VStr "")].

(** A tree that registers [person] and not the [pet] its descriptor names,
    and a tree whose only entry has no factory. *)
Definition person_only : gmap string entry := registry (delete "pet" ex_schema).

(** The person template of [ex_store] (cell 0) holds an empty array of
    pets; as the working copy of that object the loop leaves this one. *)
Definition template_copy : gmap string value :=
  list_to_map [("name", VStr ""); ("pets", List [])].

(** Closed goals about the examples are settled by evaluation. *)
Ltac by_computation := vm_compute; reflexivity.

(** * Properties *)

(** ** The record engine and the factories *)

Lemma merge_pick_lookup (t m : gmap string value) k :
  merge pick t m !! k = pick (t !! k) (m !! k).
Proof. rewrite lookup_merge. by destruct (t !! k), (m !! k). Qed.

Lemma merge_pick_dom (t m : gmap string value) : dom (merge pick t m) = dom t.
Proof.
  apply set_eq. intros k. rewrite !elem_of_dom, merge_pick_lookup.
  destruct (t !! k); simpl; split; intros [? ?]; eauto; discriminate.
Qed.

Lemma merge_pick_same_dom (t m : gmap string value) :
  dom m = dom t → merge pick t m = m.
Proof.
  intros Hd. apply map_eq. intros k. rewrite merge_pick_lookup.
  destruct (t !! k) as [d|] eqn:Ht, (m !! k) as [x|] eqn:Hm; simpl; try done.
  - apply not_elem_of_dom in Hm. rewrite Hd in Hm.
    apply not_elem_of_dom in Hm. congruence.
  - apply not_elem_of_dom in Ht. rewrite <- Hd in Ht.
    apply not_elem_of_dom in Ht. congruence.
Qed.

Lemma makeTypedFactory_plain h e t name l m :
  h !! e = Some (CObj t) → h !! l = Some (CObj m) →
  makeTypedFactory (VRef e) name h (VRef l) = inr (VRec (merge pick t m)).
Proof. intros He Hl. unfold makeTypedFactory, newRecord, ownProps. by rewrite He, Hl. Qed.

Lemma makeTypedFactory_no_value h e t name :
  h !! e = Some (CObj t) →
  makeTypedFactory (VRef e) name h VUndef = inr (VRec t).
Proof. intros He. unfold makeTypedFactory, newRecord, ownProps. by rewrite He. Qed.

Lemma registry_lookup s name sc :
  s !! name = Some sc →
  registry s !! name
  = Some (Entry (nested sc) (Some (makeTypedFactory (VRef (template sc)) None))).
Proof. intros Hs. unfold registry. by rewrite lookup_fmap, Hs. Qed.

(** C8.  The constructor made from a template [E], called with no
    argument, gives the record of [E]'s defaults; called with a plain
    object it gives a record over [E]'s keys in which a key absent from the
    argument holds [E]'s default and a key present holds the argument's
    value as it is (presence at top level only, no deep merge). *)
Theorem makeTypedFactory_defaults h e t name :
  h !! e = Some (CObj t) →
  makeTypedFactory (VRef e) name h VUndef = inr (VRec t)
  ∧ ∀ l m, h !! l = Some (CObj m) →
      ∃ r, makeTypedFactory (VRef e) name h (VRef l) = inr (VRec r)
           ∧ dom r = dom t
           ∧ ∀ k d, t !! k = Some d → r !! k = Some (default d (m !! k)).
Proof.
  intros He. split; [by eapply makeTypedFactory_no_value|].
  intros l m Hl. exists (merge pick t m). split_and!.
  - by apply makeTypedFactory_plain.
  - apply merge_pick_dom.
  - intros k d Hk. by rewrite merge_pick_lookup, Hk.
Qed.

(** C9.  [recordify(E, null)] and [recordify(E, E)] are the same record,
    the record of [E]'s defaults. *)
Theorem recordify_null_is_template h e t name :
  h !! e = Some (CObj t) →
  recordify h (VRef e) VNull name = recordify h (VRef e) (VRef e) name
  ∧ recordify h (VRef e) (VRef e) name = inr (VRec t).
Proof.
  intros He. unfold recordify. simpl truthy. cbv iota.
  rewrite (makeTypedFactory_no_value h e t name He).
  rewrite (makeTypedFactory_plain h e t name e t He He).
  by rewrite merge_pick_same_dom.
Qed.

(** C10.  [recordify] chooses between the value and the defaults by the
    truthiness of [val]: a falsy [val] ([0], the empty string, [false]) is
    ignored and the result is that of [recordify(defaultVal)]. *)
Theorem recordify_falsy_value h defaultVal val name :
  truthy val = false →
  recordify h defaultVal val name = recordify h defaultVal VUndef name
  ∧ recordify h defaultVal val name = makeTypedFactory defaultVal name h VUndef.
Proof.
  intros Hf. unfold recordify. simpl truthy. cbv iota.
  destruct val; simpl in *; try done; by rewrite Hf.
Qed.

(** ** The store: allocation and assignment *)

Lemma setProp_length h l k v : length (setProp h l k v) = length h.
Proof. unfold setProp. destruct (h !! l) as [[m|xs]|]; by rewrite ?length_insert. Qed.

Lemma setProp_lookup_ne h l l' k v : l ≠ l' → setProp h l k v !! l' = h !! l'.
Proof.
  intros Hne. unfold setProp.
  destruct (h !! l) as [[m|xs]|]; by rewrite ?list_lookup_insert_ne.
Qed.

Lemma setProp_lookup h l k v m :
  h !! l = Some (CObj m) → setProp h l k v !! l = Some (CObj (<[k:=v]> m)).
Proof.
  intros Hl. unfold setProp. rewrite Hl.
  apply list_lookup_insert_eq. by eapply lookup_lt_Some.
Qed.

Lemma setProp_prefix h0 h l k v :
  h0 `prefix_of` h → length h0 ≤ l → h0 `prefix_of` setProp h l k v.
Proof.
  intros [t ->] Hl. unfold setProp.
  destruct ((h0 ++ t) !! l) as [[m|xs]|]; try by apply prefix_app_r.
  rewrite insert_app_r_alt by done. by apply prefix_app_r.
Qed.

Lemma prefix_snoc (h : store) c : h `prefix_of` h ++ [c].
Proof. by apply prefix_app_r. Qed.

Lemma prefix_lookup_lt (h0 h : store) l :
  h0 `prefix_of` h → l < length h0 → h !! l = h0 !! l.
Proof.
  intros Hp Hl. destruct (lookup_lt_is_Some_2 h0 l Hl) as [c Hc].
  rewrite Hc. by eapply prefix_lookup_Some.
Qed.

(** ** [fromJS] never writes to a cell it was given (C7) *)

Lemma grows_bind {A B} h0 (o : outcome A) (k : store → A → outcome B) :
  grows h0 o → (∀ h1 a, o = Ret h1 a → grows h0 (k h1 a)) → grows h0 (bind o k).
Proof.
  intros Ho Hk. destruct o as [h1 a|h1 e|]; simpl.
  - by apply Hk.
  - intros h' [= <-]. by apply Ho.
  - intros h' [=].
Qed.

Lemma grows_Ret {A} (h0 h : store) (a : A) : h0 `prefix_of` h → grows h0 (Ret h a).
Proof. by intros Hp h' [= <-]. Qed.

Lemma grows_Throw {A} (h0 h : store) e : h0 `prefix_of` h → grows h0 (@Throw A h e).
Proof. by intros Hp h' [= <-]. Qed.

Lemma grows_Ret_inv {A} h0 h (a : A) : grows h0 (Ret h a) → h0 `prefix_of` h.
Proof. intros Hg. by apply Hg. Qed.

Section loop.
Variable self : store → value → string → outcome value.
Hypothesis self_grows : ∀ h v n, grows h (self h v n).

Lemma self_grows_from h0 h v n : h0 `prefix_of` h → grows h0 (self h v n).
Proof. intros Hp h' Hf. etrans; [done|]. by eapply self_grows. Qed.

Lemma mapEntries_grows nm h0 h entries :
  h0 `prefix_of` h →
  grows h0 (mapEntries (λ h' entry, self h' entry nm) h entries).
Proof.
  revert h. induction entries as [|e es IH]; intros h Hp; simpl.
  - by apply grows_Ret.
  - apply grows_bind; [by apply self_grows_from|].
    intros h1 r Hr. apply grows_bind.
    + apply IH. eapply grows_Ret_inv. rewrite <- Hr. by apply self_grows_from.
    + intros h2 rs Hrs. apply grows_Ret. eapply grows_Ret_inv.
      rewrite <- Hrs. apply IH. eapply grows_Ret_inv. rewrite <- Hr.
      by apply self_grows_from.
Qed.

Lemma convertFields_grows h0 h obj p d :
  h0 `prefix_of` h → length h0 ≤ p →
  grows h0 (convertFields self h obj p d).
Proof.
  intros Hp Hl. revert h Hp. induction d as [|[key nm] rest IH]; intros h Hp; simpl.
  - by apply grows_Ret.
  - destruct (get h obj key) as [e|v]; [by apply grows_Throw|].
    destruct (arrayItems h v) as [entries|].
    + apply grows_bind; [by apply mapEntries_grows|].
      intros h1 rs Hrs. apply IH, setProp_prefix; [|done].
      eapply grows_Ret_inv. rewrite <- Hrs. by apply mapEntries_grows.
    + destruct (typeofObject v); [|by apply IH].
      apply grows_bind; [by apply self_grows_from|].
      intros h1 r Hr. apply IH, setProp_prefix; [|done].
      eapply grows_Ret_inv. rewrite <- Hr. by apply self_grows_from.
Qed.

Lemma buildPartial_grows h obj e : grows h (buildPartial self h obj e).
Proof.
  unfold buildPartial, merge_empty, alloc.
  destruct (descriptor e) as [d|]; [|apply grows_Ret, prefix_snoc].
  apply grows_bind.
  - apply convertFields_grows; [apply prefix_snoc|done].
  - intros h2 [] H2. apply grows_Ret. eapply grows_Ret_inv. rewrite <- H2.
    apply convertFields_grows; [apply prefix_snoc|done].
Qed.
End loop.

Lemma fromJS_grows fuel h obj facTree facName :
  grows h (fromJS fuel h obj facTree facName).
Proof.
  revert h obj facName. induction fuel as [|fuel IH]; intros h obj facName; simpl.
  - intros h' [=].
  - destruct (facTree !! facName) as [e|]; [|by apply grows_Throw].
    destruct (factory_of e) as [facRef|]; [|by apply grows_Throw].
    assert (Hb : grows h (buildPartial (λ h' o n, fromJS fuel h' o facTree n) h obj e))
      by (apply buildPartial_grows; intros; apply IH).
    apply grows_bind; [done|].
    intros h1 p H1. rewrite H1 in Hb. apply grows_Ret_inv in Hb.
    destruct (facRef h1 (VRef p)); [by apply grows_Throw|by apply grows_Ret].
Qed.

(** ** Trees *)

Lemma sequence_map_Some {A} (m : gmap string (option A)) pm :
  sequence_map m = Some pm →
  pm = omap id m ∧ ∀ k o, m !! k = Some o → is_Some o.
Proof.
  unfold sequence_map. case_decide as Hall; [|done].
  intros [= <-]. split; [done|]. intros k o Hk. by apply (Hall k o).
Qed.

Lemma sequence_map_fmap_Some {A B} (f : A → option B) (m : gmap string A) pm :
  sequence_map (f <$> m) = Some pm →
  ∀ k x, m !! k = Some x → is_Some (f x).
Proof.
  intros [_ Hall]%sequence_map_Some k x Hk.
  apply (Hall k). by rewrite lookup_fmap, Hk.
Qed.

Lemma sequence_map_fmap_is_Some {A B} (f : A → option B) (m : gmap string A) :
  (∀ k x, m !! k = Some x → is_Some (f x)) →
  is_Some (sequence_map (f <$> m)).
Proof.
  intros Hall. unfold sequence_map. rewrite decide_True; [by eexists|].
  intros k o. rewrite lookup_fmap. destruct (m !! k) as [x|] eqn:Hk; [|done].
  intros [= <-]. by eapply Hall.
Qed.

Lemma snapshot_prefix d h h' v t :
  h `prefix_of` h' → snapshot d h v = Some t → snapshot d h' v = Some t.
Proof.
  intros Hp. revert v t. induction d as [|d IH]; intros v t; destruct v; simpl; try done.
  destruct (h !! l) as [c|] eqn:Hl; [|done].
  rewrite (prefix_lookup_Some _ _ _ _ Hl Hp). destruct c as [m|xs].
  - intros Hs. rewrite <- Hs. f_equal. f_equal.
    apply map_fmap_ext. intros k x Hk.
    destruct (sequence_map (snapshot d h <$> m)) as [pm|] eqn:Hseq; [|done].
    destruct (sequence_map_fmap_Some _ _ _ Hseq k x Hk) as [tx Htx].
    rewrite Htx. by apply IH.
  - destruct (mapM (snapshot d h) xs) as [ts|] eqn:Hm; [|done].
    intros [= <-]. apply mapM_Some in Hm.
    assert (mapM (snapshot d h') xs = Some ts) as ->; [|done].
    apply mapM_Some. eapply Forall2_impl; [done|]. intros x tx. apply IH.
Qed.

(** C7.  Whether [fromJS] returns or throws, the store it leaves is the
    store it was given followed by new cells: no cell that existed before
    the call is written, so [obj] and everything reachable from it reads
    back as the same tree.  (A factory is a record constructor and only
    reads its argument.) *)
Theorem fromJS_leaves_input_unchanged fuel h obj facTree facName h' :
  final_store (fromJS fuel h obj facTree facName) = Some h' →
  h `prefix_of` h'
  ∧ (∀ l c, h !! l = Some c → h' !! l = Some c)
  ∧ (∀ d t, snapshot d h obj = Some t → snapshot d h' obj = Some t).
Proof.
  intros Hf. assert (Hp : h `prefix_of` h') by by eapply fromJS_grows.
  split_and!; [done| |].
  - intros l c Hl. by eapply prefix_lookup_Some.
  - intros d t. by apply snapshot_prefix.
Qed.

(** ** Looking up the factory (C1) *)

(** C1.  A name that is not a key of the factory tree makes
    [facTree[facName]] undefined, and reading [.factory] from it throws a
    [TypeError] before the guard that raises the missing-factory error is
    reached.  No record is returned and the store is untouched. *)
Theorem fromJS_unregistered_name fuel h obj facTree facName :
  facTree !! facName = None →
  fromJS (S fuel) h obj facTree facName = Throw h TypeError
  ∧ fromJS (S fuel) h obj facTree facName ≠ Throw h (NoFactory facName).
Proof. intros Hn. simpl. by rewrite Hn. Qed.

(** The guard is reached only by an entry that is present and has no
    factory. *)
Lemma fromJS_entry_without_factory fuel h obj facTree facName e :
  facTree !! facName = Some e → factory_of e = None →
  fromJS (S fuel) h obj facTree facName = Throw h (NoFactory facName).
Proof. intros He Hf. simpl. by rewrite He, Hf. Qed.

(** ** The loop over the descriptor *)

Lemma arrayItems_typeofObject h v entries :
  arrayItems h v = Some entries → typeofObject v = true.
Proof. by destruct v. Qed.

Lemma get_object h l m key :
  h !! l = Some (CObj m) → get h (VRef l) key = inr (default VUndef (m !! key)).
Proof. intros Hl. simpl. by rewrite Hl. Qed.

Section loop_cell.
Variable self : store → value → string → outcome value.
Hypothesis self_grows : ∀ h v n, grows h (self h v n).

Lemma mapEntries_Forall2 nm h entries h1 rs :
  mapEntries (λ h' entry, self h' entry nm) h entries = Ret h1 rs →
  h `prefix_of` h1
  ∧ Forall2 (λ entry r, ∃ ha hb, h `prefix_of` ha ∧ self ha entry nm = Ret hb r)
      entries rs.
Proof using self_grows.
  revert h rs. induction entries as [|e es IH]; intros h rs; simpl.
  - intros [= <- <-]. split; [done|constructor].
  - destruct (self h e nm) as [ha r|ha err|] eqn:He; simpl; try done.
    destruct (mapEntries _ ha es) as [hb rs'|hb err|] eqn:Hes; simpl; try done.
    intros [= <- <-]. destruct (IH _ _ Hes) as [Hp HF].
    assert (h `prefix_of` ha) by (eapply grows_Ret_inv; rewrite <- He; apply self_grows).
    split; [by etrans|]. constructor; [by exists h, ha|].
    eapply Forall2_impl; [done|]. intros x y (h2 & h3 & ? & ?).
    exists h2, h3. split; [by etrans|done].
Qed.

(** One turn of the loop: the value read, and the state in which the
    rest of the loop runs. *)
Lemma convertFields_step h0 h obj p key nm rest w h' :
  h0 `prefix_of` h → length h0 ≤ p → h !! p = Some (CObj w) →
  convertFields self h obj p ((key, nm) :: rest) = Ret h' () →
  ∃ v h2 w2,
    get h obj key = inr v
    ∧ h0 `prefix_of` h2 ∧ h2 !! p = Some (CObj w2)
    ∧ convertFields self h2 obj p rest = Ret h' ()
    ∧ match arrayItems h v with
      | Some entries =>
          ∃ h1 rs, mapEntries (λ h' entry, self h' entry nm) h entries = Ret h1 rs
                   ∧ w2 = <[key := List rs]> w
      | None =>
          if typeofObject v
          then ∃ h1 r, self h v nm = Ret h1 r ∧ w2 = <[key := r]> w
          else w2 = w ∧ h2 = h
      end.
Proof using self_grows.
  intros Hp Hl Hw. simpl.
  destruct (get h obj key) as [err|v]; [done|].
  destruct (arrayItems h v) as [entries|] eqn:Harr.
  - destruct (mapEntries _ h entries) as [h1 rs|h1 err|] eqn:Hm; simpl; try done.
    intros Hrest. destruct (mapEntries_Forall2 _ _ _ _ _ Hm) as [Hp1 _].
    exists v, (setProp h1 p key (List rs)), (<[key := List rs]> w).
    rewrite Harr. split_and!; try done.
    + apply setProp_prefix; [by etrans|done].
    + apply setProp_lookup. by eapply prefix_lookup_Some.
    + by exists h1, rs.
  - destruct (typeofObject v) eqn:Hty.
    + destruct (self h v nm) as [h1 r|h1 err|] eqn:Hs; simpl; try done.
      intros Hrest.
      assert (h `prefix_of` h1) by (eapply grows_Ret_inv; rewrite <- Hs; apply self_grows).
      exists v, (setProp h1 p key r), (<[key := r]> w).
      rewrite Harr, Hty. split_and!; try done.
      * apply setProp_prefix; [by etrans|done].
      * apply setProp_lookup. by eapply prefix_lookup_Some.
      * by exists h1, r.
    + intros Hrest. exists v, h, w. rewrite Harr, Hty. by split_and!.
Qed.

(** A property of the working copy survives the loop if no turn of the
    loop for its key finds an array or a value of type object. *)
Lemma convertFields_untouched h0 h obj p d w h' :
  h0 `prefix_of` h → length h0 ≤ p → h !! p = Some (CObj w) →
  convertFields self h obj p d = Ret h' () →
  ∃ w', h0 `prefix_of` h' ∧ h' !! p = Some (CObj w')
    ∧ ∀ k, (k ∈ d.*1 → ∀ hx, h0 `prefix_of` hx →
              ∃ v, get hx obj k = inr v ∧ typeofObject v = false) →
           w' !! k = w !! k.
Proof using self_grows.
  intros Hp Hl. revert h w Hp. induction d as [|[key nm] rest IH]; intros h w Hp Hw.
  - simpl. intros [= <-]. by exists w.
  - intros Hrun.
    destruct (convertFields_step _ _ _ _ _ _ _ _ _ Hp Hl Hw Hrun)
      as (v & h2 & w2 & Hget & Hp2 & Hw2 & Hrest & Hcase).
    destruct (IH h2 w2 Hp2 Hw2 Hrest) as (w' & Hp' & Hw' & Heq).
    exists w'. split_and!; [done..|]. intros k Hk. rewrite Heq.
    2:{ intros Hin. apply Hk. simpl. by apply list_elem_of_further. }
    destruct (decide (k = key)) as [->|Hne].
    + destruct (Hk (list_elem_of_here _ _) h Hp) as (v' & Hget' & Hty).
      rewrite Hget in Hget'. injection Hget' as <-.
      destruct (arrayItems h v) as [entries|] eqn:Harr.
      { apply arrayItems_typeofObject in Harr. congruence. }
      rewrite Hty in Hcase. by destruct Hcase as [-> _].
    + destruct (arrayItems h v) as [entries|].
      { destruct Hcase as (? & ? & _ & ->). by rewrite lookup_insert_ne. }
      destruct (typeofObject v).
      * destruct Hcase as (? & ? & _ & ->). by rewrite lookup_insert_ne.
      * by destruct Hcase as [-> _].
Qed.

(** The turn of the loop for a key that holds an array leaves, under that
    key, the sequence of the converted elements in the order of the
    array. *)
Lemma convertFields_array h0 h obj p d w h' k nm a entries :
  h0 `prefix_of` h → length h0 ≤ p → h !! p = Some (CObj w) →
  NoDup d.*1 → (k, nm) ∈ d →
  (∀ hx, h0 `prefix_of` hx → get hx obj k = inr (VRef a)) →
  h0 !! a = Some (CArr entries) →
  convertFields self h obj p d = Ret h' () →
  ∃ w' rs, h' !! p = Some (CObj w') ∧ w' !! k = Some (List rs)
    ∧ Forall2 (λ entry r, ∃ ha hb, h0 `prefix_of` ha ∧ self ha entry nm = Ret hb r)
        entries rs.
Proof using self_grows.
  intros Hp Hl Hw Hnd Hin Hget Ha. revert h w Hp Hw Hnd Hin.
  induction d as [|[key nm'] rest IH]; intros h w Hp Hw Hnd Hin Hrun.
  { by apply elem_of_nil in Hin. }
  simpl in Hnd. apply NoDup_cons in Hnd as [Hfresh Hnd].
  destruct (convertFields_step _ _ _ _ _ _ _ _ _ Hp Hl Hw Hrun)
    as (v & h2 & w2 & Hgetv & Hp2 & Hw2 & Hrest & Hcase).
  apply elem_of_cons in Hin as [[= <- <-]|Hin].
  - rewrite (Hget h Hp) in Hgetv. injection Hgetv as <-.
    assert (arrayItems h (VRef a) = Some entries) as Harr.
    { simpl. by rewrite (prefix_lookup_Some _ _ _ _ Ha Hp). }
    rewrite Harr in Hcase. destruct Hcase as (h1 & rs & Hm & ->).
    destruct (convertFields_untouched h0 h2 obj p rest _ h' Hp2 Hl Hw2 Hrest)
      as (w' & _ & Hw' & Heq).
    exists w', rs. split_and!; [done| |].
    + by rewrite Heq, lookup_insert_eq.
    + destruct (mapEntries_Forall2 _ _ _ _ _ Hm) as [_ HF].
      eapply Forall2_impl; [done|]. intros x y (ha & hb & ? & ?).
      exists ha, hb. split; [by trans h|done].
  - by eapply (IH h2 w2).
Qed.
End loop_cell.

(** ** The working copy handed to the factory *)

Lemma fromJS_Ret_inv fuel h obj facTree facName h' r :
  fromJS (S fuel) h obj facTree facName = Ret h' r →
  ∃ e facRef p,
    facTree !! facName = Some e ∧ factory_of e = Some facRef
    ∧ buildPartial (λ hx o n, fromJS fuel hx o facTree n) h obj e = Ret h' p
    ∧ facRef h' (VRef p) = inr r.
Proof.
  intros Hrun. simpl in Hrun.
  destruct (facTree !! facName) as [e|]; [|done].
  destruct (factory_of e) as [facRef|] eqn:He; [|done].
  destruct (buildPartial _ h obj e) as [h1 p|h1 err|] eqn:Hb; simpl in Hrun; try done.
  destruct (facRef h1 (VRef p)) as [err|r'] eqn:Hf; [done|].
  injection Hrun as <- <-. by exists e, facRef, p.
Qed.

Lemma buildPartial_Ret_inv self h obj e h' p :
  buildPartial self h obj e = Ret h' p →
  p = length h
  ∧ match descriptor e with
    | Some d => convertFields self (h ++ [CObj (ownProps h obj)]) obj p d = Ret h' ()
    | None => h' = h ++ [CObj (ownProps h obj)]
    end.
Proof.
  unfold buildPartial, merge_empty, alloc. destruct (descriptor e) as [d|].
  - destruct (convertFields _ _ _ _ d) as [h2 []|h2 err|] eqn:Hc; simpl; try done.
    by intros [= <- <-].
  - by intros [= <- <-].
Qed.

Lemma lookup_snoc_new (h : store) c : (h ++ [c]) !! length h = Some c.
Proof. by rewrite lookup_app_r, Nat.sub_diag. Qed.

(** The working copy is a new cell.  It holds the value of the input under
    every key that is outside the descriptor, and under every key whose
    value in the input is not of type object. *)
Lemma fromJS_working_copy fuel h l m facTree facName h' r :
  h !! l = Some (CObj m) →
  fromJS (S fuel) h (VRef l) facTree facName = Ret h' r →
  ∃ e facRef w,
    facTree !! facName = Some e ∧ factory_of e = Some facRef
    ∧ h `prefix_of` h'
    ∧ h' !! length h = Some (CObj w)
    ∧ facRef h' (VRef (length h)) = inr r
    ∧ ∀ k, k ∉ (default [] (descriptor e)).*1
           ∨ typeofObject (default VUndef (m !! k)) = false →
           w !! k = m !! k.
Proof.
  intros Hl Hrun.
  assert (Hp : h `prefix_of` h') by (eapply grows_Ret_inv; rewrite <- Hrun; apply fromJS_grows).
  apply fromJS_Ret_inv in Hrun as (e & facRef & p & He & Hf & Hb & Hr).
  apply buildPartial_Ret_inv in Hb as [-> Hb].
  assert (ownProps h (VRef l) = m) as Hown by (simpl; by rewrite Hl).
  rewrite Hown in Hb. exists e, facRef.
  destruct (descriptor e) as [d|] eqn:Hd; simpl.
  - destruct (convertFields_untouched _ (λ hx v n, fromJS_grows fuel hx v facTree n)
                h (h ++ [CObj m]) (VRef l) (length h) d m h') as (w & _ & Hw & Heq);
      [apply prefix_snoc|done|apply lookup_snoc_new|done|].
    exists w. split_and!; try done. intros k Hk. apply Heq.
    intros Hin hx Hpx. destruct Hk as [Hk|Hk]; [done|].
    exists (default VUndef (m !! k)). split; [|done].
    apply get_object. by eapply prefix_lookup_Some.
  - subst h'. exists m. split_and!; try done. apply lookup_snoc_new.
Qed.


Lemma ex_run :
  fromJS 3 ex_store (VRef 3) (registry ex_schema) "person" = Ret ex_final ex_record.
Proof. vm_compute. reflexivity. Qed.

Lemma items_run :
  fromJS 3 items_store (VRef 3) (registry items_schema) "cart"
  = Ret items_final items_record.
Proof. vm_compute. reflexivity. Qed.

(** C2, amended.  If [obj[key]] is absent, [undefined], a boolean, a number
    or a string, the working copy handed to the factory holds under [key]
    what [obj] holds; a field is converted only if its value is an array
    (whatever its elements) or has type object. *)
Theorem fromJS_scalar_field_untouched fuel h l m facTree facName key h' r :
  h !! l = Some (CObj m) →
  typeofObject (default VUndef (m !! key)) = false →
  fromJS (S fuel) h (VRef l) facTree facName = Ret h' r →
  ∃ e facRef w,
    facTree !! facName = Some e ∧ factory_of e = Some facRef
    ∧ h' !! length h = Some (CObj w)
    ∧ facRef h' (VRef (length h)) = inr r
    ∧ w !! key = m !! key.
Proof.
  intros Hl Hty Hrun.
  destruct (fromJS_working_copy _ _ _ _ _ _ _ _ Hl Hrun)
    as (e & facRef & w & He & Hf & _ & Hw & Hr & Hkeys).
  exists e, facRef, w. split_and!; try done. apply Hkeys. by right.
Qed.

Lemma fromJS_scalar_field_untouched_witness :
  let m : gmap string value := list_to_map [("name", VStr "Ann"); ("pets", VRef 4)] in
  ex_store !! 3 = Some (CObj m)
  ∧ typeofObject (default VUndef (m !! "name")) = false
  ∧ fromJS 3 ex_store (VRef 3) (registry ex_schema) "person" = Ret ex_final ex_record
  ∧ ∃ e facRef w,
      registry ex_schema !! "person" = Some e ∧ factory_of e = Some facRef
      ∧ ex_final !! length ex_store = Some (CObj w)
      ∧ facRef ex_final (VRef (length ex_store)) = inr ex_record
      ∧ w !! "name" = m !! "name".
Proof.
  intros m.
  assert (H1 : ex_store !! 3 = Some (CObj m)) by reflexivity.
  assert (H2 : typeofObject (default VUndef (m !! "name")) = false) by by_computation.
  assert (H3 : fromJS 3 ex_store (VRef 3) (registry ex_schema) "person"
               = Ret ex_final ex_record) by exact ex_run.
  split_and!; [done..|].
  exact (fromJS_scalar_field_untouched 2 ex_store 3 m (registry ex_schema)
           "person" "name" ex_final ex_record H1 H2 H3).
Defined.

(** C2 as stated fails: a [null] under a descriptor key has type object,
    so the field is converted (here into the default pet record); and the
    elements of an array are converted whatever they are (here the number
    [1]). *)
Lemma fromJS_null_field_counterexample :
  get doc_store (VRef 5) "pet" = inr VNull
  ∧ (∃ h', fromJS 3 doc_store (VRef 5) (registry doc_schema) "person"
           = Ret h' (rec_of [("name", VStr "Ann"); ("pet", default_pet);
                             ("master", VNull)])
           ∧ get h' (VRef (length doc_store)) "pet" = inr default_pet)
  ∧ arrayItems doc_store (VRef 8) = Some [VNum 1]
  ∧ get doc_store (VRef 7) "pet" = inr (VRef 8)
  ∧ (∃ h', fromJS 3 doc_store (VRef 7) (registry doc_schema) "person"
           = Ret h' (rec_of [("name", VStr "Ann"); ("pet", List [default_pet]);
                             ("master", VNull)])).
Proof.
  split_and!; try (vm_compute; reflexivity).
  - eexists. split; vm_compute; reflexivity.
  - eexists. vm_compute. reflexivity.
Qed.

(** What the test [typeof obj[key] === 'object'] lets through: the
    conversion of [null].  The working copy is the empty object; the factory
    is called on it if the nested type has no descriptor field, and reading
    the first descriptor field from [null] throws otherwise. *)
Lemma fromJS_of_null fuel h facTree facName e facRef :
  facTree !! facName = Some e → factory_of e = Some facRef →
  fromJS (S fuel) h VNull facTree facName
  = match descriptor e with
    | Some (_ :: _) => Throw (h ++ [CObj ∅]) TypeError
    | _ =>
        match facRef (h ++ [CObj ∅]) (VRef (length h)) with
        | inr r => Ret (h ++ [CObj ∅]) r
        | inl err => Throw (h ++ [CObj ∅]) err
        end
    end.
Proof.
  intros He Hf. cbn [fromJS]. rewrite He, Hf.
  unfold buildPartial, merge_empty, alloc. cbn [ownProps].
  by destruct (descriptor e) as [[|[key nm] rest]|].
Qed.

(** C6.  Under a key that is not in the descriptor the working copy handed
    to the factory holds exactly what [obj] holds, by reference when it is
    an object or an array, and no cell of the input is written. *)
Theorem fromJS_passes_other_fields fuel h l m facTree facName key h' r :
  h !! l = Some (CObj m) →
  (∀ e, facTree !! facName = Some e → key ∉ (default [] (descriptor e)).*1) →
  fromJS (S fuel) h (VRef l) facTree facName = Ret h' r →
  ∃ e facRef w,
    facTree !! facName = Some e ∧ factory_of e = Some facRef
    ∧ h' !! length h = Some (CObj w)
    ∧ facRef h' (VRef (length h)) = inr r
    ∧ w !! key = m !! key
    ∧ ∀ a c, h !! a = Some c → h' !! a = Some c.
Proof.
  intros Hl Hout Hrun.
  destruct (fromJS_working_copy _ _ _ _ _ _ _ _ Hl Hrun)
    as (e & facRef & w & He & Hf & Hp & Hw & Hr & Hkeys).
  exists e, facRef, w. split_and!; try done.
  - apply Hkeys. left. by apply Hout.
  - intros a c Ha. by eapply prefix_lookup_Some.
Qed.

Lemma fromJS_passes_other_fields_witness :
  let m : gmap string value := list_to_map [("name", VStr "Ann"); ("master", VRef 4)] in
  let h' := doc_store ++ [ obj_of [("name", VStr "Ann"); ("master", VRef 4)] ] in
  let r := rec_of [("name", VStr "Ann"); ("type", VStr "")] in
  doc_store !! 3 = Some (CObj m)
  ∧ (∀ e, registry doc_schema !! "pet" = Some e →
          "master" ∉ (default [] (descriptor e)).*1)
  ∧ fromJS 1 doc_store (VRef 3) (registry doc_schema) "pet" = Ret h' r
  ∧ ∃ e facRef w,
      registry doc_schema !! "pet" = Some e ∧ factory_of e = Some facRef
      ∧ h' !! length doc_store = Some (CObj w)
      ∧ facRef h' (VRef (length doc_store)) = inr r
      ∧ w !! "master" = m !! "master"
      ∧ ∀ a c, doc_store !! a = Some c → h' !! a = Some c.
Proof.
  intros m h' r.
  assert (H1 : doc_store !! 3 = Some (CObj m)) by reflexivity.
  assert (H2 : ∀ e, registry doc_schema !! "pet" = Some e →
                    "master" ∉ (default [] (descriptor e)).*1).
  { intros e He.
    rewrite (registry_lookup doc_schema "pet" (Schema 2 None)) in He by by_computation.
    injection He as <-. apply not_elem_of_nil. }
  assert (H3 : fromJS 1 doc_store (VRef 3) (registry doc_schema) "pet" = Ret h' r)
    by by_computation.
  split_and!; [done..|].
  exact (fromJS_passes_other_fields 0 doc_store 3 m (registry doc_schema)
           "pet" "master" h' r H1 H2 H3).
Defined.

(** C5.  A descriptor field that holds an array becomes, in the working
    copy handed to the factory, the persistent sequence of the results of
    converting the elements with the nested factory name, one per element
    and in the order of the array.  In particular the input
    [{items: [{n: 1}, {n: 2}]}] under the descriptor [{items: 'item'}]
    gives the record whose [items] is the sequence of the records [{n: 1}]
    and [{n: 2}], in that order. *)
Theorem fromJS_array_field_in_order :
  (∀ fuel h l m facTree facName e d key nm a entries h' r,
     h !! l = Some (CObj m) →
     facTree !! facName = Some e → descriptor e = Some d →
     NoDup d.*1 → (key, nm) ∈ d →
     m !! key = Some (VRef a) → h !! a = Some (CArr entries) →
     fromJS (S fuel) h (VRef l) facTree facName = Ret h' r →
     ∃ facRef w rs,
       factory_of e = Some facRef
       ∧ h' !! length h = Some (CObj w)
       ∧ facRef h' (VRef (length h)) = inr r
       ∧ w !! key = Some (List rs)
       ∧ Forall2 (λ entry r', ∃ ha hb, h `prefix_of` ha
                    ∧ fromJS fuel ha entry facTree nm = Ret hb r') entries rs)
  ∧ fromJS 3 items_store (VRef 3) (registry items_schema) "cart"
    = Ret items_final
        (rec_of [("items", List [rec_of [("n", VNum 1)]; rec_of [("n", VNum 2)]])]).
Proof.
  split; [|apply items_run].
  intros fuel h l m facTree facName e d key nm a entries h' r
    Hl He Hd Hnd Hin Hkey Ha Hrun.
  apply fromJS_Ret_inv in Hrun as (e' & facRef & p & He' & Hf & Hb & Hr).
  assert (e' = e) as -> by congruence.
  apply buildPartial_Ret_inv in Hb as [-> Hb]. rewrite Hd in Hb.
  assert (ownProps h (VRef l) = m) as Hown by (simpl; by rewrite Hl).
  rewrite Hown in Hb.
  destruct (convertFields_array _ (λ hx v n, fromJS_grows fuel hx v facTree n)
              h (h ++ [CObj m]) (VRef l) (length h) d m h' key nm a entries)
    as (w & rs & Hw & Hk & HF);
    [apply prefix_snoc|done|apply lookup_snoc_new|done|done| |done|done|].
  { intros hx Hpx. rewrite (get_object hx l m); [by rewrite Hkey|].
    by eapply prefix_lookup_Some. }
  by exists facRef, w, rs.
Qed.

Lemma fromJS_array_field_in_order_witness :
  let m : gmap string value := list_to_map [("items", VRef 4)] in
  ∃ facRef w rs,
    factory_of (Entry (Some [("items", "item")]) (Some (makeTypedFactory (VRef 0) None)))
      = Some facRef
    ∧ items_final !! length items_store = Some (CObj w)
    ∧ facRef items_final (VRef (length items_store)) = inr items_record
    ∧ w !! "items" = Some (List rs)
    ∧ Forall2 (λ entry r', ∃ ha hb, items_store `prefix_of` ha
                 ∧ fromJS 2 ha entry (registry items_schema) "item" = Ret hb r')
        [VRef 5; VRef 6] rs.
Proof.
  intros m.
  apply (proj1 fromJS_array_field_in_order 2 items_store 3 m (registry items_schema)
           "cart" _ [("items", "item")] "items" "item" 4 [VRef 5; VRef 6]
           items_final items_record).
  - reflexivity.
  - by_computation.
  - reflexivity.
  - simpl. apply NoDup_singleton.
  - apply list_elem_of_here.
  - by_computation.
  - reflexivity.
  - by_computation.
Defined.

(** ** Termination on inputs of finite depth (C3) *)

Lemma map_forallb_lookup {A} (f : string → A → bool) (m : gmap string A) k x :
  map_forallb f m → m !! k = Some x → f k x.
Proof. unfold map_forallb. intros H%bool_decide_unpack Hk. by apply (H k x). Qed.

Lemma map_forallb_intro {A} (f : string → A → bool) (m : gmap string A) :
  (∀ k x, m !! k = Some x → f k x) → map_forallb f m.
Proof. intros H. unfold map_forallb. apply bool_decide_pack. intros k x Hk. by apply H. Qed.

Lemma arrayProps_lookup xs k x : arrayProps xs !! k = Some x → x ∈ xs.
Proof.
  unfold arrayProps. intros H%elem_of_list_to_map_2.
  apply elem_of_lookup_imap in H as (i & y & [= -> ->] & Hi).
  by eapply list_elem_of_lookup_2.
Qed.

Lemma stringChars_typeofObject s x : x ∈ stringChars s → typeofObject x = false.
Proof. unfold stringChars. by intros (c & -> & _)%list_elem_of_fmap. Qed.

Lemma get_nested d h0 hx obj key v :
  h0 `prefix_of` hx → nested_within d h0 obj → get hx obj key = inr v →
  typeofObject v = false ∨ ∃ d', d = S d' ∧ nested_within d' h0 v.
Proof.
  intros Hp Hn Hget. destruct obj as [| |b|n|s|l|xs|m]; simpl in Hget; try done.
  - injection Hget as <-. by left.
  - injection Hget as <-. by left.
  - injection Hget as <-. left. case_decide; [done|].
    destruct (arrayProps (stringChars s) !! key) as [x|] eqn:Hx; [|done].
    simpl. by eapply stringChars_typeofObject, arrayProps_lookup.
  - destruct d as [|d']; [done|]. simpl in Hn.
    destruct (h0 !! l) as [c|] eqn:Hl; [|done].
    rewrite (prefix_lookup_Some _ _ _ _ Hl Hp) in Hget.
    destruct c as [m|xs]; injection Hget as <-.
    + destruct (m !! key) as [x|] eqn:Hx; simpl; [|by left].
      right. exists d'. split; [done|]. by apply (map_forallb_lookup _ _ _ _ Hn Hx).
    + case_decide; [by left|].
      destruct (arrayProps xs !! key) as [x|] eqn:Hx; simpl; [|by left].
      right. exists d'. split; [done|].
      apply arrayProps_lookup in Hx. apply forallb_True in Hn.
      by apply (proj1 (Forall_forall _ _) Hn).
  - injection Hget as <-. left. by case_decide.
  - destruct d as [|d']; [done|]. simpl in Hn. injection Hget as <-.
    destruct (m !! key) as [x|] eqn:Hx; simpl; [|by left].
    right. exists d'. split; [done|]. by apply (map_forallb_lookup _ _ _ _ Hn Hx).
Qed.

Lemma arrayItems_nested d h0 hx v entries :
  h0 `prefix_of` hx → nested_within d h0 v → arrayItems hx v = Some entries →
  ∃ d', d = S d' ∧ Forall (λ entry, nested_within d' h0 entry) entries.
Proof.
  intros Hp Hn Harr. destruct v; try done. simpl in Harr.
  destruct d as [|d']; [done|]. simpl in Hn.
  destruct (h0 !! l) as [c|] eqn:Hl; [|done].
  rewrite (prefix_lookup_Some _ _ _ _ Hl Hp) in Harr.
  destruct c as [m|xs]; [done|]. injection Harr as <-.
  exists d'. split; [done|]. by apply forallb_True.
Qed.

Section loop_returns.
Variable self : store → value → string → outcome value.
Variable h0 : store.
Variable d : nat.
Hypothesis self_grows : ∀ h v n, grows h (self h v n).
Hypothesis self_returns : ∀ d' hx v nm,
  d' < d → h0 `prefix_of` hx → nested_within d' h0 v → self hx v nm ≠ OutOfFuel.

Lemma mapEntries_returns nm d' h entries :
  d' < d → Forall (λ entry, nested_within d' h0 entry) entries →
  h0 `prefix_of` h →
  mapEntries (λ h' entry, self h' entry nm) h entries ≠ OutOfFuel.
Proof using self_grows self_returns.
  intros Hd HF. revert h. induction HF as [|e es He Hes IH]; intros h Hp; simpl; [done|].
  destruct (self h e nm) as [h1 r|h1 err|] eqn:Hs; simpl; [|done|].
  - assert (h `prefix_of` h1) by (eapply grows_Ret_inv; rewrite <- Hs; apply self_grows).
    specialize (IH h1). destruct (mapEntries _ h1 es); simpl; try done.
    apply IH. by trans h.
  - destruct (self_returns d' h e nm Hd Hp He Hs).
Qed.

Lemma convertFields_returns h obj p dd :
  nested_within d h0 obj → h0 `prefix_of` h → length h0 ≤ p →
  convertFields self h obj p dd ≠ OutOfFuel.
Proof using self_grows self_returns.
  intros Hn Hp Hl. revert h Hp. induction dd as [|[key nm] rest IH]; intros h Hp; simpl; [done|].
  destruct (get h obj key) as [err|v] eqn:Hget; [done|].
  destruct (get_nested _ _ _ _ _ _ Hp Hn Hget) as [Hty|(d' & Hd & Hv)].
  - destruct (arrayItems h v) as [entries|] eqn:Harr.
    { apply arrayItems_typeofObject in Harr. congruence. }
    rewrite Hty. by apply IH.
  - destruct (arrayItems h v) as [entries|] eqn:Harr.
    + destruct (arrayItems_nested _ _ _ _ _ Hp Hv Harr) as (d'' & -> & HF).
      destruct (mapEntries _ h entries) as [h1 rs|h1 err|] eqn:Hm; simpl; [|done|].
      * apply IH, setProp_prefix; [|done].
        eapply grows_Ret_inv. rewrite <- Hm. by apply mapEntries_grows.
      * exfalso. revert Hm. apply (mapEntries_returns nm d''); [lia|done..].
    + destruct (typeofObject v); [|by apply IH].
      destruct (self h v nm) as [h1 r|h1 err|] eqn:Hs; simpl; [|done|].
      * apply IH, setProp_prefix; [|done]. trans h; [done|].
        eapply grows_Ret_inv. rewrite <- Hs. apply self_grows.
      * exfalso. revert Hs. apply (self_returns d'); [lia|done..].
Qed.
End loop_returns.

Lemma fromJS_returns facTree fuel d h0 h obj facName :
  d < fuel → h0 `prefix_of` h → nested_within d h0 obj →
  fromJS fuel h obj facTree facName ≠ OutOfFuel.
Proof.
  revert d h obj facName. induction fuel as [|fuel IH]; intros d h obj facName Hd Hp Hn; [lia|].
  simpl. destruct (facTree !! facName) as [e|]; [|done].
  destruct (factory_of e) as [facRef|]; [|done].
  unfold buildPartial, merge_empty, alloc.
  destruct (descriptor e) as [dd|]; simpl.
  - pose proof (convertFields_returns (λ hx v n, fromJS fuel hx v facTree n) h0 d
                  (λ hx v n, fromJS_grows fuel hx v facTree n)) as Hloop.
    specialize (Hloop (λ d' hx v nm Hd' Hpx Hv, IH d' hx v nm ltac:(lia) Hpx Hv)).
    specialize (Hloop (h ++ [CObj (ownProps h obj)]) obj (length h) dd Hn).
    destruct (convertFields _ _ obj (length h) dd) as [h2 []|h2 err|]; simpl.
    + by destruct (facRef h2 (VRef (length h))).
    + done.
    + exfalso. apply Hloop; [by apply prefix_app_r|by apply prefix_length|done].
  - by destruct (facRef _ (VRef (length h))).
Qed.

(** C3, amended.  [fromJS] has no cycle protection, but a cyclic descriptor
    graph does not by itself make it run forever: the recursion follows the
    nesting of the input, not the descriptor graph.  On every input nested
    at most [d] levels deep the call returns or throws within [d + 1]
    nested calls, whatever the factory tree. *)
Theorem fromJS_terminates_on_finite_input d h obj facTree facName :
  nested_within d h obj →
  ∃ h', (∃ r, fromJS (S d) h obj facTree facName = Ret h' r)
        ∨ (∃ e, fromJS (S d) h obj facTree facName = Throw h' e).
Proof.
  intros Hn.
  pose proof (fromJS_returns facTree (S d) d h h obj facName
                (Nat.lt_succ_diag_r d) (reflexivity h) Hn) as Hret.
  destruct (fromJS (S d) h obj facTree facName) as [h' r|h' e|]; [| |done].
  - exists h'. left. by exists r.
  - exists h'. right. by exists e.
Qed.

Lemma fromJS_terminates_on_finite_input_witness :
  nested_within 2 doc_store (VRef 3)
  ∧ ∃ h', (∃ r, fromJS 3 doc_store (VRef 3) (registry doc_schema) "person" = Ret h' r)
          ∨ (∃ e, fromJS 3 doc_store (VRef 3) (registry doc_schema) "person"
                  = Throw h' e).
Proof.
  assert (H1 : nested_within 2 doc_store (VRef 3)) by (vm_compute; exact I).
  split; [done|].
  exact (fromJS_terminates_on_finite_input 2 doc_store (VRef 3)
           (registry doc_schema) "person" H1).
Defined.

(** C3 as stated fails: the factory tree of the source's doc comment is
    cyclic ([person] converts its [master] with [person]), and [fromJS]
    returns on [{name: 'Ann', master: {name: 'Bob'}}] after two nested
    calls. *)
Lemma fromJS_cyclic_registry_counterexample :
  (registry doc_schema !! "person") ≫= descriptor
    = Some [("pet", "pet"); ("master", "person")]
  ∧ fromJS 2 doc_store (VRef 3) (registry doc_schema) "person"
    = Ret (doc_store ++ [ obj_of [("name", VStr "Ann");
                                  ("master", rec_of [("name", VStr "Bob"); ("pet", VRef 1);
                                                     ("master", VNull)])];
                          obj_of [("name", VStr "Bob")] ])
          (rec_of [("name", VStr "Ann"); ("pet", VRef 1);
                   ("master", rec_of [("name", VStr "Bob"); ("pet", VRef 1);
                                      ("master", VNull)])]).
Proof. split; by_computation. Qed.

(** What the missing cycle protection does cost: an input that is cyclic
    along a descriptor field (an object that is its own [master]) is never
    converted, whatever the fuel. *)
Lemma fromJS_cyclic_input_diverges fuel h :
  doc_store `prefix_of` h →
  fromJS fuel h (VRef 9) (registry doc_schema) "person" = OutOfFuel.
Proof.
  revert h. induction fuel as [|fuel IH]; intros h Hp; [done|].
  assert (registry doc_schema !! "person"
          = Some (Entry (Some [("pet", "pet"); ("master", "person")])
                        (Some (makeTypedFactory (VRef 0) None)))) as Hperson
    by by_computation.
  assert (h !! 9 = Some (obj_of [("name", VStr "Ann"); ("master", VRef 9)])) as H9
    by (apply (prefix_lookup_Some doc_store h 9 _ eq_refl Hp)).
  assert (∀ c, (h ++ [c]) !! 9 = Some (obj_of [("name", VStr "Ann"); ("master", VRef 9)]))
    as H9' by (intros c; by apply lookup_app_l_Some).
  cbn [fromJS]. rewrite Hperson. cbn [factory_of].
  unfold buildPartial, merge_empty, alloc. cbn [descriptor convertFields].
  rewrite (get_object _ 9 _ "pet" (H9' _)).
  replace (default VUndef (list_to_map [("name", VStr "Ann"); ("master", VRef 9)] !! "pet"))
    with VUndef by by_computation.
  cbn [arrayItems typeofObject].
  rewrite (get_object _ 9 _ "master" (H9' _)).
  replace (default VUndef (list_to_map [("name", VStr "Ann"); ("master", VRef 9)] !! "master"))
    with (VRef 9) by by_computation.
  cbn [arrayItems typeofObject]. rewrite H9'. unfold obj_of.
  rewrite IH; [done|]. by apply prefix_app_r.
Qed.

(** ** Round trip through [toJS] (C4) *)

Lemma matches_shape_inv d h s name v :
  matches_shape d h s name v →
  ∃ d' sc l t m,
    d = S d' ∧ s !! name = Some sc ∧ v = VRef l
    ∧ h !! template sc = Some (CObj t) ∧ h !! l = Some (CObj m)
    ∧ dom m = dom t
    ∧ NoDup (default [] (nested sc)).*1
    ∧ ∀ key x, m !! key = Some x →
        match descriptor_lookup (nested sc) key with
        | Some nm => field_matches d' h s nm x
        | None => is_scalar x
        end.
Proof.
  destruct d as [|d']; [done|]. simpl.
  destruct (s !! name) as [sc|]; [|done]. destruct v as [| | | | |l| |]; try done.
  destruct (h !! template sc) as [[t|?]|] eqn:Ht; try done.
  destruct (h !! l) as [[m|?]|] eqn:Hl; try done.
  intros [[Hdom Hnd]%andb_True Hfields]%andb_True.
  apply bool_decide_unpack in Hdom, Hnd.
  exists d', sc, l, t, m. split_and!; try done.
  intros key x Hx. pose proof (map_forallb_lookup _ _ _ _ Hfields Hx) as Hf.
  simpl in Hf. destruct (descriptor_lookup (nested sc) key) as [nm|]; [|done].
  unfold field_matches. destruct (arrayItems h x) as [entries|]; [|done].
  destruct d' as [|d'']; [done|]. exists d''. split; [done|]. by apply forallb_True.
Qed.

Lemma scalar_trees fuel fuel' h h' x :
  is_scalar x →
  toJS fuel h x = snapshot fuel' h' x ∧ is_Some (snapshot fuel' h' x).
Proof. destruct x, fuel, fuel'; try done; intros _; (split; [done|by eexists]). Qed.

Lemma descriptor_lookup_elem d key nm :
  NoDup d.*1 → (key, nm) ∈ d → descriptor_lookup (Some d) key = Some nm.
Proof. intros Hnd Hin. simpl. by apply elem_of_list_to_map_1. Qed.

Lemma descriptor_lookup_None d key :
  key ∉ d.*1 → descriptor_lookup (Some d) key = None.
Proof. intros Hout. simpl. by apply not_elem_of_list_to_map_1. Qed.

Section roundtrip_loop.
Variable s : gmap string schema.
Variable self : store → value → string → outcome value.
Variable h0 : store.
Variable fuel : nat.
Hypothesis self_grows : ∀ h v n, grows h (self h v n).
Hypothesis self_roundtrip : ∀ g hx v nm,
  g ≤ fuel → h0 `prefix_of` hx → matches_shape g h0 s nm v →
  ∃ h' r t, self hx v nm = Ret h' r
            ∧ snapshot g h0 v = Some t ∧ ∀ hy, toJS g hy r = Some t.

Lemma mapEntries_roundtrip g nm h entries :
  g ≤ fuel → h0 `prefix_of` h →
  Forall (λ entry, matches_shape g h0 s nm entry) entries →
  ∃ h1 rs ts,
    mapEntries (λ h' entry, self h' entry nm) h entries = Ret h1 rs
    ∧ h `prefix_of` h1
    ∧ mapM (snapshot g h0) entries = Some ts
    ∧ ∀ hy, mapM (toJS g hy) rs = Some ts.
Proof using self_grows self_roundtrip.
  intros Hg Hp HF. revert h Hp. induction HF as [|e es He Hes IH]; intros h Hp.
  - exists h, [], []. by split_and!.
  - destruct (self_roundtrip g h e nm Hg Hp He) as (ha & r & t & Hr & Hsnap & Hto).
    assert (h `prefix_of` ha) by (eapply grows_Ret_inv; rewrite <- Hr; apply self_grows).
    destruct (IH ha) as (h1 & rs & ts & Hrs & Hp1 & Hsn & Htos); [by trans h|].
    exists h1, (r :: rs), (t :: ts). split_and!.
    + simpl. rewrite Hr. simpl. by rewrite Hrs.
    + by trans ha.
    + apply mapM_Some. constructor; [done|by apply mapM_Some].
    + intros hy. apply mapM_Some. constructor; [done|by apply mapM_Some].
Qed.

Variable l p : nat.
Variable m : gmap string value.
Hypothesis input_cell : h0 !! l = Some (CObj m).
Hypothesis fresh_copy : length h0 ≤ p.

Lemma convertFields_roundtrip rest h w :
  h0 `prefix_of` h → h !! p = Some (CObj w) → dom w = dom m →
  NoDup rest.*1 →
  (∀ k nm x, (k, nm) ∈ rest → m !! k = Some x → field_matches fuel h0 s nm x) →
  ∃ h' w',
    convertFields self h (VRef l) p rest = Ret h' ()
    ∧ h0 `prefix_of` h' ∧ h' !! p = Some (CObj w') ∧ dom w' = dom m
    ∧ (∀ k, k ∉ rest.*1 → w' !! k = w !! k)
    ∧ (∀ k nm x, (k, nm) ∈ rest → m !! k = Some x →
         ∃ r t, w' !! k = Some r
                ∧ snapshot fuel h0 x = Some t ∧ ∀ hy, toJS fuel hy r = Some t).
Proof using self_grows self_roundtrip input_cell fresh_copy.
  revert h w. induction rest as [|[key nm] rest IH]; intros h w Hp Hw Hdom Hnd Hok.
  { exists h, w. split_and!; try done. intros k nm x Hin. by apply elem_of_nil in Hin. }
  simpl in Hnd. apply NoDup_cons in Hnd as [Hfresh Hnd].
  assert (∀ k nm x, (k, nm) ∈ rest → m !! k = Some x → field_matches fuel h0 s nm x) as Hok'.
  { intros k nm' x Hin. apply Hok. by apply list_elem_of_further. }
  (* what the rest of the loop does, once this turn has left [h2] and [w2] *)
  assert (∀ h2 w2,
            h0 `prefix_of` h2 → h2 !! p = Some (CObj w2) → dom w2 = dom m →
            (∀ k, k ≠ key → w2 !! k = w !! k) →
            (∀ x, m !! key = Some x →
               ∃ r t, w2 !! key = Some r
                      ∧ snapshot fuel h0 x = Some t ∧ ∀ hy, toJS fuel hy r = Some t) →
            ∃ h' w',
              convertFields self h2 (VRef l) p rest = Ret h' ()
              ∧ h0 `prefix_of` h' ∧ h' !! p = Some (CObj w') ∧ dom w' = dom m
              ∧ (∀ k, k ∉ ((key, nm) :: rest).*1 → w' !! k = w !! k)
              ∧ (∀ k nm' x, (k, nm') ∈ (key, nm) :: rest → m !! k = Some x →
                   ∃ r t, w' !! k = Some r
                          ∧ snapshot fuel h0 x = Some t ∧ ∀ hy, toJS fuel hy r = Some t))
    as Hrest.
  { intros h2 w2 Hp2 Hw2 Hdom2 Hother Hkey.
    destruct (IH h2 w2 Hp2 Hw2 Hdom2 Hnd Hok') as (h' & w' & Hrun & Hp' & Hw' & Hdom' & Hout & Hin).
    exists h', w'. split_and!; try done.
    - intros k Hk. simpl in Hk. apply not_elem_of_cons in Hk as [Hne Hk].
      rewrite (Hout k Hk). by apply Hother.
    - intros k nm' x [[= -> ->]|Hk]%elem_of_cons Hx.
      + rewrite (Hout key Hfresh). by apply Hkey.
      + by eapply Hin. }
  assert (get h (VRef l) key = inr (default VUndef (m !! key))) as Hget.
  { apply get_object. by eapply prefix_lookup_Some. }
  cbn [convertFields]. rewrite Hget.
  destruct (m !! key) as [x|] eqn:Hx; simpl.
  2:{ destruct (Hrest h w Hp Hw Hdom) as (h' & w' & ? & ? & ? & ? & ? & ?);
        [done|done|]. by exists h', w'. }
  pose proof (Hok key nm x (list_elem_of_here _ _) Hx) as Hnested.
  unfold field_matches in Hnested.
  assert (is_Some (w !! key)) as Hkeyw.
  { apply elem_of_dom. rewrite Hdom. apply elem_of_dom. by eexists. }
  destruct (arrayItems h0 x) as [entries|] eqn:Harr0.
  - destruct Hnested as (g & Hg & HF).
    assert (arrayItems h x = Some entries) as ->.
    { destruct x; try done. simpl in Harr0 |- *.
      destruct (h0 !! l0) as [c|] eqn:Hc; [|done].
      by rewrite (prefix_lookup_Some _ _ _ _ Hc Hp). }
    destruct (mapEntries_roundtrip g nm h entries) as (h1 & rs & ts & Hrs & Hp1 & Hsn & Htos);
      [lia|done|done|].
    rewrite Hrs. simpl.
    destruct (Hrest (setProp h1 p key (List rs)) (<[key := List rs]> w))
      as (h' & w' & ? & ? & ? & ? & ? & ?).
    + apply setProp_prefix; [by trans h|done].
    + apply setProp_lookup. by eapply prefix_lookup_Some.
    + rewrite <- Hdom. by apply dom_insert_lookup_L.
    + intros k Hne. by rewrite lookup_insert_ne.
    + intros x' [= <-]. exists (List rs), (PArr ts). rewrite lookup_insert_eq.
      split_and!; [done| |].
      * destruct x; try done. simpl in Harr0. subst fuel. simpl.
        destruct (h0 !! l0) as [[?|xs]|]; try done.
        injection Harr0 as ->. by rewrite Hsn.
      * intros hy. subst fuel. simpl. by rewrite Htos.
    + by exists h', w'.
  - destruct (matches_shape_inv _ _ _ _ _ Hnested)
      as (g & sc & l' & t' & m' & Hg & _ & -> & _ & Hl' & _).
    assert (arrayItems h (VRef l') = None) as ->.
    { simpl. by rewrite (prefix_lookup_Some _ _ _ _ Hl' Hp). }
    cbn [typeofObject].
    destruct (self_roundtrip fuel h (VRef l') nm (le_n _) Hp Hnested)
      as (h1 & r & t & Hr & Hsnap & Hto).
    assert (h `prefix_of` h1) by (eapply grows_Ret_inv; rewrite <- Hr; apply self_grows).
    rewrite Hr. simpl.
    destruct (Hrest (setProp h1 p key r) (<[key := r]> w))
      as (h' & w' & ? & ? & ? & ? & ? & ?).
    + apply setProp_prefix; [by trans h|done].
    + apply setProp_lookup. by eapply prefix_lookup_Some.
    + rewrite <- Hdom. by apply dom_insert_lookup_L.
    + intros k Hne. by rewrite lookup_insert_ne.
    + intros x' [= <-]. exists r, t. by rewrite lookup_insert_eq.
    + by exists h', w'.
Qed.
End roundtrip_loop.

Lemma record_tree fuel h0 (m w : gmap string value) :
  dom w = dom m →
  (∀ k x, m !! k = Some x →
     ∃ r t, w !! k = Some r ∧ snapshot fuel h0 x = Some t ∧ ∀ hy, toJS fuel hy r = Some t) →
  ∃ pm, sequence_map (snapshot fuel h0 <$> m) = Some pm
        ∧ ∀ hy, sequence_map (toJS fuel hy <$> w) = Some pm.
Proof.
  intros Hdom Hkeys.
  destruct (sequence_map_fmap_is_Some (snapshot fuel h0) m) as [pm Hpm].
  { intros k x Hx. destruct (Hkeys k x Hx) as (r & t & _ & Ht & _). by eexists. }
  exists pm. split; [done|]. intros hy. rewrite <- Hpm. f_equal.
  apply map_eq. intros k. rewrite !lookup_fmap.
  destruct (m !! k) as [x|] eqn:Hx.
  - destruct (Hkeys k x Hx) as (r & t & -> & Ht & Hr). simpl. by rewrite Ht, Hr.
  - apply not_elem_of_dom in Hx. rewrite <- Hdom in Hx.
    apply not_elem_of_dom in Hx. by rewrite Hx.
Qed.

Lemma fromJS_roundtrip s fuel : ∀ n h0 h name v,
  fuel ≤ n → h0 `prefix_of` h → matches_shape fuel h0 s name v →
  ∃ h' r t, fromJS n h v (registry s) name = Ret h' r
            ∧ snapshot fuel h0 v = Some t ∧ ∀ hy, toJS fuel hy r = Some t.
Proof.
  induction fuel as [fuel IH] using lt_wf_ind. intros n h0 h name v Hn Hp Hm.
  destruct (matches_shape_inv _ _ _ _ _ Hm)
    as (f & sc & l & t & m & -> & Hs & -> & Ht & Hl & Hdom & Hnd & Hfields).
  destruct n as [|n]; [lia|].
  assert (h !! l = Some (CObj m)) as Hl' by by eapply prefix_lookup_Some.
  cbn [fromJS]. rewrite (registry_lookup s name sc Hs). cbn [factory_of].
  unfold buildPartial, merge_empty, alloc. cbn [descriptor].
  assert (ownProps h (VRef l) = m) as -> by (simpl; by rewrite Hl').
  assert (∃ h' w, match nested sc with
                  | Some d =>
                      bind (convertFields (λ h' o n0, fromJS n h' o (registry s) n0)
                              (h ++ [CObj m]) (VRef l) (length h) d)
                        (λ h2 _, Ret h2 (length h))
                  | None => Ret (h ++ [CObj m]) (length h)
                  end = Ret h' (length h)
                 ∧ h0 `prefix_of` h' ∧ h' !! length h = Some (CObj w) ∧ dom w = dom m
                 ∧ ∀ k x, m !! k = Some x →
                     ∃ r tx, w !! k = Some r ∧ snapshot f h0 x = Some tx
                             ∧ ∀ hy, toJS f hy r = Some tx)
    as (h' & w & Hrun & Hp' & Hw & Hdomw & Hkeys).
  { destruct (nested sc) as [d|] eqn:Hd.
    - destruct (convertFields_roundtrip s (λ h' o n0, fromJS n h' o (registry s) n0) h0 f
                  (λ hx v n0, fromJS_grows n hx v (registry s) n0)
                  (λ g hx v nm Hg, IH g ltac:(lia) n h0 hx nm v ltac:(lia))
                  l (length h) m Hl (prefix_length _ _ Hp) d (h ++ [CObj m]) m)
        as (h' & w & Hrun & Hp' & Hw & Hdomw & Hout & Hin);
        [by apply prefix_app_r|apply lookup_snoc_new|done|done| |].
      { intros k nm x Hk Hx. specialize (Hfields k x Hx).
        by rewrite (descriptor_lookup_elem d k nm Hnd Hk) in Hfields. }
      exists h', w. rewrite Hrun. split_and!; try done.
      intros k x Hx. destruct (decide (k ∈ d.*1)) as [Hk|Hk].
      + apply list_elem_of_fmap in Hk as ([k' nm] & -> & Hk). by eapply Hin.
      + specialize (Hfields k x Hx). rewrite (descriptor_lookup_None d k Hk) in Hfields.
        destruct (scalar_trees f f h0 h0 x Hfields) as [_ [tx Htx]].
        exists x, tx. rewrite (Hout k Hk). split_and!; try done.
        intros hy. destruct (scalar_trees f f hy h0 x Hfields) as [-> _]. done.
    - exists (h ++ [CObj m]), m. split_and!; try done.
      + by apply prefix_app_r.
      + apply lookup_snoc_new.
      + intros k x Hx. specialize (Hfields k x Hx). simpl in Hfields.
        destruct (scalar_trees f f h0 h0 x Hfields) as [_ [tx Htx]].
        exists x, tx. split_and!; try done.
        intros hy. destruct (scalar_trees f f hy h0 x Hfields) as [-> _]. done. }
  rewrite Hrun. cbn [bind].
  rewrite (makeTypedFactory_plain h' (template sc) t None (length h) w);
    [|by eapply prefix_lookup_Some|done].
  rewrite merge_pick_same_dom by congruence.
  destruct (record_tree f h0 m w Hdomw Hkeys) as (pm & Hsnap & Hto).
  exists h', (VRec w), (PObj pm). split_and!; [done| |].
  - simpl. by rewrite Hl, Hsnap.
  - intros hy. simpl. by rewrite Hto.
Qed.

(** C4.  If [obj] matches the record type [name] of a registry of typed
    factories exactly (it has the template's keys, every descriptor field
    holds an object or an array of objects that match the nested type, every
    other field holds a scalar), then [fromJS] returns a record, and [toJS]
    of that record is the tree of [obj], before and after the call: the
    two are deep-equal.  The descriptor graph need not be acyclic for this;
    an input that matches within [d] levels is enough. *)
Theorem fromJS_toJS_roundtrip s d h name obj :
  matches_shape d h s name obj →
  ∃ h' r t,
    fromJS d h obj (registry s) name = Ret h' r
    ∧ toJS d h' r = Some t
    ∧ snapshot d h obj = Some t
    ∧ snapshot d h' obj = Some t.
Proof.
  intros Hm.
  destruct (fromJS_roundtrip s d d h h name obj (le_n d) (reflexivity h) Hm)
    as (h' & r & t & Hrun & Hsnap & Hto).
  exists h', r, t. split_and!; try done.
  apply (snapshot_prefix d h h'); [|done].
  eapply grows_Ret_inv. rewrite <- Hrun. apply fromJS_grows.
Qed.

Lemma fromJS_toJS_roundtrip_witness :
  matches_shape 3 ex_store ex_schema "person" (VRef 3)
  ∧ ∃ h' r t,
      fromJS 3 ex_store (VRef 3) (registry ex_schema) "person" = Ret h' r
      ∧ toJS 3 h' r = Some t
      ∧ snapshot 3 ex_store (VRef 3) = Some t
      ∧ snapshot 3 h' (VRef 3) = Some t.
Proof.
  assert (H1 : matches_shape 3 ex_store ex_schema "person" (VRef 3))
    by (vm_compute; exact I).
  split; [done|].
  exact (fromJS_toJS_roundtrip ex_schema 3 ex_store "person" (VRef 3) H1).
Defined.

(** The worked example of the spec, computed: the record, and the tree
    [toJS] gives back. *)
Lemma ex_roundtrip :
  toJS 3 ex_final ex_record
  = Some (PObj (list_to_map
       [("name", PStr "Ann");
        ("pets", PArr [PObj (list_to_map [("name", PStr "Rex"); ("type", PStr "dog")])])]))
  ∧ toJS 3 ex_final ex_record = snapshot 3 ex_store (VRef 3).
Proof. split; by_computation. Qed.

(** ** Instances on the examples *)

Lemma fromJS_unregistered_name_witness :
  registry ex_schema !! "unknownName" = None
  ∧ fromJS 1 ex_store (VRef 3) (registry ex_schema) "unknownName"
    = Throw ex_store TypeError
  ∧ fromJS 1 ex_store (VRef 3) (registry ex_schema) "unknownName"
    ≠ Throw ex_store (NoFactory "unknownName").
Proof.
  assert (H1 : registry ex_schema !! "unknownName" = None) by by_computation.
  split; [done|].
  exact (fromJS_unregistered_name 0 ex_store (VRef 3) (registry ex_schema)
           "unknownName" H1).
Defined.

(** A name missing at a nested level: the descriptor of [person] names
    [pet], which this tree does not register.  The call throws the same
    [TypeError], after the working copy of the person was made. *)
Lemma fromJS_unregistered_nested_name :
  let tree := registry (delete "pet" ex_schema) in
  tree !! "pet" = None
  ∧ fromJS 3 ex_store (VRef 3) tree "person"
    = Throw (ex_store ++ [obj_of [("name", VStr "Ann"); ("pets", VRef 4)]]) TypeError.
Proof. split; by_computation. Qed.

Lemma fromJS_leaves_input_unchanged_witness :
  final_store (fromJS 3 ex_store (VRef 3) (registry ex_schema) "person") = Some ex_final
  ∧ ex_store `prefix_of` ex_final
  ∧ (∀ l c, ex_store !! l = Some c → ex_final !! l = Some c)
  ∧ (∀ d t, snapshot d ex_store (VRef 3) = Some t → snapshot d ex_final (VRef 3) = Some t).
Proof.
  assert (H1 : final_store (fromJS 3 ex_store (VRef 3) (registry ex_schema) "person")
               = Some ex_final) by by_computation.
  split; [done|].
  exact (fromJS_leaves_input_unchanged 3 ex_store (VRef 3) (registry ex_schema)
           "person" ex_final H1).
Defined.

Lemma makeTypedFactory_defaults_witness :
  let t : gmap string value := list_to_map [("name", VStr ""); ("type", VStr "")] in
  ex_store !! 2 = Some (CObj t)
  ∧ makeTypedFactory (VRef 2) None ex_store VUndef = inr (VRec t)
  ∧ ∀ l m, ex_store !! l = Some (CObj m) →
      ∃ r, makeTypedFactory (VRef 2) None ex_store (VRef l) = inr (VRec r)
           ∧ dom r = dom t
           ∧ ∀ k d, t !! k = Some d → r !! k = Some (default d (m !! k)).
Proof.
  intros t.
  assert (H1 : ex_store !! 2 = Some (CObj t)) by reflexivity.
  split; [done|].
  exact (makeTypedFactory_defaults ex_store 2 t None H1).
Defined.

Lemma recordify_null_is_template_witness :
  let t : gmap string value := list_to_map [("name", VStr ""); ("type", VStr "")] in
  ex_store !! 2 = Some (CObj t)
  ∧ recordify ex_store (VRef 2) VNull None = recordify ex_store (VRef 2) (VRef 2) None
  ∧ recordify ex_store (VRef 2) (VRef 2) None = inr (VRec t).
Proof.
  intros t.
  assert (H1 : ex_store !! 2 = Some (CObj t)) by reflexivity.
  split; [done|].
  exact (recordify_null_is_template ex_store 2 t None H1).
Defined.

Lemma recordify_falsy_value_witness :
  truthy (VNum 0) = false
  ∧ recordify ex_store (VRef 2) (VNum 0) None = recordify ex_store (VRef 2) VUndef None
  ∧ recordify ex_store (VRef 2) (VNum 0) None
    = makeTypedFactory (VRef 2) None ex_store VUndef.
Proof.
  assert (H1 : truthy (VNum 0) = false) by reflexivity.
  split; [done|].
  exact (recordify_falsy_value ex_store (VRef 2) (VNum 0) None H1).
Defined.

(** The other falsy values. *)
Lemma recordify_falsy_examples :
  truthy (VStr "") = false ∧ truthy (VBool false) = false
  ∧ recordify ex_store (VRef 2) (VStr "") None = inr default_pet
  ∧ recordify ex_store (VRef 2) (VBool false) None = inr default_pet
  ∧ recordify ex_store (VRef 2) (VNum 0) None = inr default_pet.
Proof. split_and!; by_computation. Qed.

(** * Further properties of [fromJS] *)

(** ** Where the missing-factory error comes from *)

Section error_origin.
Variable self : store → value → string → outcome value.
Variable P : error → Prop.
Hypothesis P_TypeError : P TypeError.
Hypothesis self_throws : ∀ h v n h' e, self h v n = Throw h' e → P e.


End error_origin.



(** ** Calls that do not recurse *)

Lemma arrayItems_not_object h v : typeofObject v = false → arrayItems h v = None.
Proof. by destruct v. Qed.

Lemma arrayItems_prefix h0 h v xs :
  h0 `prefix_of` h → arrayItems h0 v = Some xs → arrayItems h v = Some xs.
Proof.
  intros Hp. destruct v; try done. simpl.
  destruct (h0 !! l) as [c|] eqn:Hl; [|done].
  by rewrite (prefix_lookup_Some _ _ _ _ Hl Hp).
Qed.


Lemma convertFields_skip self h obj p d :
  (∀ key nm, (key, nm) ∈ d → ∃ v, get h obj key = inr v ∧ typeofObject v = false) →
  convertFields self h obj p d = Ret h ().
Proof.
  induction d as [|[key nm] rest IH]; intros Hd; simpl; [done|].
  destruct (Hd key nm (list_elem_of_here _ _)) as (v & -> & Hty).
  rewrite (arrayItems_not_object h v Hty), Hty. apply IH.
  intros k n Hin. apply (Hd k n). by apply list_elem_of_further.
Qed.

Lemma fromJS_without_object_field fuel h obj facTree facName e facRef :
  facTree !! facName = Some e → factory_of e = Some facRef →
  (∀ key nm, (key, nm) ∈ default [] (descriptor e) →
     ∃ v, get (h ++ [CObj (ownProps h obj)]) obj key = inr v ∧ typeofObject v = false) →
  fromJS (S fuel) h obj facTree facName
  = match facRef (h ++ [CObj (ownProps h obj)]) (VRef (length h)) with
    | inr r => Ret (h ++ [CObj (ownProps h obj)]) r
    | inl err => Throw (h ++ [CObj (ownProps h obj)]) err
    end.
Proof.
  intros He Hf Hd. cbn [fromJS]. rewrite He, Hf.
  unfold buildPartial, merge_empty, alloc.
  destruct (descriptor e) as [d|]; [|done].
  by rewrite convertFields_skip.
Qed.

(** X3.  A number or a boolean given as [obj] is not rejected: the working
    copy is the empty object, no descriptor field is converted, and the
    result is what the factory makes of the empty object, one call deep. *)
Theorem fromJS_of_number_or_boolean fuel h obj facTree facName e facRef :
  (∃ n, obj = VNum n) ∨ (∃ b, obj = VBool b) →
  facTree !! facName = Some e → factory_of e = Some facRef →
  fromJS (S fuel) h obj facTree facName
  = match facRef (h ++ [CObj ∅]) (VRef (length h)) with
    | inr r => Ret (h ++ [CObj ∅]) r
    | inl err => Throw (h ++ [CObj ∅]) err
    end.
Proof.
  intros Hobj He Hf.
  rewrite (fromJS_without_object_field fuel h obj facTree facName e facRef He Hf).
  - by destruct Hobj as [[n ->]|[b ->]].
  - intros key nm _. exists VUndef. by destruct Hobj as [[n ->]|[b ->]].
Qed.

Lemma fromJS_of_number_or_boolean_witness :
  ((∃ n, VNum 7 = VNum n) ∨ (∃ b, VNum 7 = VBool b))
  ∧ registry doc_schema !! "person"
    = Some (Entry (Some [("pet", "pet"); ("master", "person")])
                  (Some (makeTypedFactory (VRef 0) None)))
  ∧ fromJS 1 doc_store (VNum 7) (registry doc_schema) "person"
    = match makeTypedFactory (VRef 0) None (doc_store ++ [CObj ∅])
              (VRef (length doc_store)) with
      | inr r => Ret (doc_store ++ [CObj ∅]) r
      | inl err => Throw (doc_store ++ [CObj ∅]) err
      end.
Proof.
  assert (H1 : (∃ n, VNum 7 = VNum n) ∨ (∃ b, VNum 7 = VBool b)) by (left; by exists 7%Z).
  assert (H2 : registry doc_schema !! "person"
               = Some (Entry (Some [("pet", "pet"); ("master", "person")])
                             (Some (makeTypedFactory (VRef 0) None)))) by by_computation.
  split_and!; [done..|].
  exact (fromJS_of_number_or_boolean 0 doc_store (VNum 7) (registry doc_schema)
           "person" _ _ H1 H2 eq_refl).
Defined.

(** X4.  [null] or [undefined] given as [obj]: the working copy is the
    empty object.  If the entry has no descriptor, or an empty one, the
    result is what the factory makes of the empty object; if the descriptor
    has a field, reading that field from [obj] throws a [TypeError] and the
    factory is not called. *)
Theorem fromJS_of_null_or_undefined fuel h obj facTree facName e facRef :
  obj = VNull ∨ obj = VUndef →
  facTree !! facName = Some e → factory_of e = Some facRef →
  fromJS (S fuel) h obj facTree facName
  = match descriptor e with
    | Some (_ :: _) => Throw (h ++ [CObj ∅]) TypeError
    | _ =>
        match facRef (h ++ [CObj ∅]) (VRef (length h)) with
        | inr r => Ret (h ++ [CObj ∅]) r
        | inl err => Throw (h ++ [CObj ∅]) err
        end
    end.
Proof.
  intros Hobj He Hf. cbn [fromJS]. rewrite He, Hf.
  unfold buildPartial, merge_empty, alloc.
  destruct Hobj as [-> | ->]; cbn [ownProps];
    by destruct (descriptor e) as [[|[key nm] rest]|].
Qed.

Lemma fromJS_of_null_or_undefined_witness :
  (VUndef = VNull ∨ VUndef = VUndef)
  ∧ registry doc_schema !! "person"
    = Some (Entry (Some [("pet", "pet"); ("master", "person")])
                  (Some (makeTypedFactory (VRef 0) None)))
  ∧ fromJS 1 doc_store VUndef (registry doc_schema) "person"
    = Throw (doc_store ++ [CObj ∅]) TypeError.
Proof.
  assert (H1 : VUndef = VNull ∨ VUndef = VUndef) by by right.
  assert (H2 : registry doc_schema !! "person"
               = Some (Entry (Some [("pet", "pet"); ("master", "person")])
                             (Some (makeTypedFactory (VRef 0) None)))) by by_computation.
  split_and!; [done..|].
  exact (fromJS_of_null_or_undefined 0 doc_store VUndef (registry doc_schema)
           "person" _ _ H1 H2 eq_refl).
Defined.

(** ** Nested factory names are resolved only when they are needed *)

Lemma prefix_one_more (h h' : store) c :
  h `prefix_of` h' → length h' = S (length h) → h' !! length h = Some c →
  h' = h ++ [c].
Proof.
  intros [k ->] Hlen Hc. rewrite length_app in Hlen.
  destruct k as [|x [|y k]]; simpl in Hlen; try lia.
  rewrite lookup_snoc_new in Hc. by injection Hc as ->.
Qed.

Lemma convertFields_lazy self h0 l m p d :
  h0 !! l = Some (CObj m) → length h0 ≤ p →
  (∀ key nm, (key, nm) ∈ d →
     typeofObject (default VUndef (m !! key)) = false
     ∨ arrayItems h0 (default VUndef (m !! key)) = Some []) →
  ∀ h w, h0 `prefix_of` h → h !! p = Some (CObj w) → dom w = dom m →
  ∃ h' w',
    convertFields self h (VRef l) p d = Ret h' ()
    ∧ h0 `prefix_of` h' ∧ length h' = length h
    ∧ h' !! p = Some (CObj w') ∧ dom w' = dom m
    ∧ (∀ key nm, (key, nm) ∈ d →
         arrayItems h0 (default VUndef (m !! key)) = Some [] → w' !! key = Some (List []))
    ∧ (∀ key, (∀ nm, (key, nm) ∈ d →
                 typeofObject (default VUndef (m !! key)) = false) →
              w' !! key = w !! key).
Proof.
  intros Hl Hp. induction d as [|[key nm] rest IH]; intros Hd h w Hh Hw Hdom.
  { exists h, w. split_and!; try done. intros key nm Hin. by apply elem_of_nil in Hin. }
  assert (∀ k n, (k, n) ∈ rest →
            typeofObject (default VUndef (m !! k)) = false
            ∨ arrayItems h0 (default VUndef (m !! k)) = Some []) as Hrest.
  { intros k n Hin. apply (Hd k n). by apply list_elem_of_further. }
  cbn [convertFields]. rewrite (get_object h l m key) by by eapply prefix_lookup_Some.
  destruct (Hd key nm (list_elem_of_here _ _)) as [Hty|Harr].
  - rewrite (arrayItems_not_object h _ Hty), Hty.
    destruct (IH Hrest h w Hh Hw Hdom) as (h' & w' & Hrun & Hh' & Hlen & Hw' & Hdom' & Hi & Hii).
    exists h', w'. split_and!; try done.
    + intros k n [[= -> ->]|Hin]%elem_of_cons Hk; [|by eapply Hi].
      apply arrayItems_typeofObject in Hk. congruence.
    + intros k Hk. apply Hii. intros n Hin. apply (Hk n). by apply list_elem_of_further.
  - rewrite (arrayItems_prefix h0 h _ [] Hh Harr). cbn [mapEntries bind].
    assert (is_Some (m !! key)) as [v Hv].
    { destruct (m !! key); [by eexists|done]. }
    destruct (IH Hrest (setProp h p key (List [])) (<[key := List []]> w))
      as (h' & w' & Hrun & Hh' & Hlen & Hw' & Hdom' & Hi & Hii).
    + by apply setProp_prefix.
    + by apply setProp_lookup.
    + rewrite <- Hdom. apply dom_insert_lookup_L.
      apply elem_of_dom. rewrite Hdom. apply elem_of_dom. by eexists.
    + exists h', w'. rewrite setProp_length in Hlen. split_and!; try done.
      * intros k n [[= -> ->]|Hin]%elem_of_cons Hk; [|by eapply Hi].
        destruct (decide (key ∈ rest.*1)) as [Hin|Hout].
        { apply list_elem_of_fmap in Hin as ([k' n'] & Hk' & Hin). simpl in Hk'. subst k'.
          by eapply Hi. }
        rewrite Hii, lookup_insert_eq; [done|].
        intros n' Hin. destruct Hout. apply list_elem_of_fmap. by exists (key, n').
      * intros k Hk. rewrite Hii.
        2:{ intros n Hin. apply (Hk n). by apply list_elem_of_further. }
        destruct (decide (k = key)) as [->|Hne]; [|by rewrite lookup_insert_ne].
        specialize (Hk nm (list_elem_of_here _ _)).
        apply arrayItems_typeofObject in Harr. congruence.
Qed.

(** X2.  A nested factory name is looked up only when its field is
    converted.  If every descriptor field of the object [obj] holds a value
    that is not of type object, or an empty array, [fromJS] does not recurse
    at all: it is the factory applied to the working copy, in which each
    empty array has become the empty sequence and every other key holds
    what [obj] holds, whether or not the names of the descriptor are
    registered. *)
Theorem fromJS_resolves_names_lazily fuel h l m facTree facName e facRef :
  facTree !! facName = Some e → factory_of e = Some facRef →
  h !! l = Some (CObj m) →
  (∀ key nm, (key, nm) ∈ default [] (descriptor e) →
     typeofObject (default VUndef (m !! key)) = false
     ∨ arrayItems h (default VUndef (m !! key)) = Some []) →
  ∃ w,
    fromJS (S fuel) h (VRef l) facTree facName
    = match facRef (h ++ [CObj w]) (VRef (length h)) with
      | inr r => Ret (h ++ [CObj w]) r
      | inl err => Throw (h ++ [CObj w]) err
      end
    ∧ dom w = dom m
    ∧ (∀ key nm, (key, nm) ∈ default [] (descriptor e) →
         arrayItems h (default VUndef (m !! key)) = Some [] → w !! key = Some (List []))
    ∧ (∀ key, (∀ nm, (key, nm) ∈ default [] (descriptor e) →
                 typeofObject (default VUndef (m !! key)) = false) →
              w !! key = m !! key).
Proof.
  intros He Hf Hl Hd. cbn [fromJS]. rewrite He, Hf.
  unfold buildPartial, merge_empty, alloc.
  assert (ownProps h (VRef l) = m) as -> by (simpl; by rewrite Hl).
  destruct (descriptor e) as [d|]; simpl in Hd.
  - destruct (convertFields_lazy (λ h' o n, fromJS fuel h' o facTree n) h l m (length h) d
                Hl (le_n _) Hd (h ++ [CObj m]) m)
      as (h' & w & Hrun & Hh' & Hlen & Hw & Hdom & Hi & Hii);
      [apply prefix_snoc|apply lookup_snoc_new|done|].
    rewrite length_app, Nat.add_1_r in Hlen.
    rewrite (prefix_one_more h h' (CObj w) Hh' Hlen Hw) in Hrun.
    exists w. rewrite Hrun. by split_and!.
  - exists m. split_and!; try done. intros key nm Hin. by apply elem_of_nil in Hin.
Qed.

Lemma fromJS_resolves_names_lazily_witness :
  let m : gmap string value := list_to_map [("name", VStr ""); ("pets", VRef 1)] in
  let e := Entry (Some [("pets", "pet")]) (Some (makeTypedFactory (VRef 0) None)) in
  person_only !! "person" = Some e
  ∧ person_only !! "pet" = None
  ∧ ex_store !! 0 = Some (CObj m)
  ∧ (∀ key nm, (key, nm) ∈ default [] (descriptor e) →
       typeofObject (default VUndef (m !! key)) = false
       ∨ arrayItems ex_store (default VUndef (m !! key)) = Some [])
  ∧ ∃ w,
      fromJS 1 ex_store (VRef 0) person_only "person"
      = match makeTypedFactory (VRef 0) None (ex_store ++ [CObj w])
                (VRef (length ex_store)) with
        | inr r => Ret (ex_store ++ [CObj w]) r
        | inl err => Throw (ex_store ++ [CObj w]) err
        end
      ∧ dom w = dom m
      ∧ (∀ key nm, (key, nm) ∈ default [] (descriptor e) →
           arrayItems ex_store (default VUndef (m !! key)) = Some [] →
           w !! key = Some (List []))
      ∧ (∀ key, (∀ nm, (key, nm) ∈ default [] (descriptor e) →
                   typeofObject (default VUndef (m !! key)) = false) →
                w !! key = m !! key).
Proof.
  intros m e.
  assert (H1 : person_only !! "person" = Some e) by by_computation.
  assert (H1' : person_only !! "pet" = None) by by_computation.
  assert (H2 : ex_store !! 0 = Some (CObj m)) by reflexivity.
  assert (H3 : ∀ key nm, (key, nm) ∈ default [] (descriptor e) →
                 typeofObject (default VUndef (m !! key)) = false
                 ∨ arrayItems ex_store (default VUndef (m !! key)) = Some []).
  { intros key nm Hin. simpl in Hin. apply list_elem_of_singleton in Hin as [= -> ->].
    right. by_computation. }
  split_and!; [done..|].
  exact (fromJS_resolves_names_lazily 0 ex_store 0 m person_only "person" e _
           H1 eq_refl H2 H3).
Defined.

(** The same call, computed: the record of the template itself, with the
    empty array of pets turned into the empty sequence. *)
Lemma fromJS_template_with_unregistered_pet :
  fromJS 1 ex_store (VRef 0) person_only "person"
  = Ret (ex_store ++ [CObj template_copy]) (VRec template_copy).
Proof. by_computation. Qed.




(** ** What the loop does to the working copy of an object *)

Section loop_object.
Variable self : store → value → string → outcome value.
Hypothesis self_grows : ∀ h v n, grows h (self h v n).
Variable h0 : store.
Variable l p : nat.
Variable m : gmap string value.
Hypothesis input_cell : h0 !! l = Some (CObj m).
Hypothesis fresh_copy : length h0 ≤ p.

Lemma convertFields_keys d h w h' :
  h0 `prefix_of` h → h !! p = Some (CObj w) → dom w = dom m →
  convertFields self h (VRef l) p d = Ret h' () →
  ∃ w', h' !! p = Some (CObj w') ∧ dom w' = dom m.
Proof using self_grows input_cell fresh_copy.
  revert h w. induction d as [|[key nm] rest IH]; intros h w Hp Hw Hdom.
  { simpl. intros [= <-]. by exists w. }
  intros Hrun.
  destruct (convertFields_step self self_grows _ _ _ _ _ _ _ _ _ Hp fresh_copy Hw Hrun)
    as (v & h2 & w2 & Hget & Hp2 & Hw2 & Hrest & Hcase).
  rewrite (get_object h l m key) in Hget by by eapply prefix_lookup_Some.
  injection Hget as <-.
  apply (IH h2 w2 Hp2 Hw2); [|done].
  assert (∀ x, typeofObject (default VUndef (m !! key)) = true →
               dom (<[key := x]> w) = dom m) as Hset.
  { intros x Hty. rewrite <- Hdom. apply dom_insert_lookup_L.
    apply elem_of_dom. rewrite Hdom. apply elem_of_dom.
    destruct (m !! key); [by eexists|done]. }
  destruct (arrayItems h (default VUndef (m !! key))) as [entries|] eqn:Harr.
  - destruct Hcase as (h1 & rs & _ & ->). apply arrayItems_typeofObject in Harr.
    by apply Hset.
  - destruct (typeofObject (default VUndef (m !! key))) eqn:Hty.
    + destruct Hcase as (h1 & r & _ & ->). by apply Hset.
    + by destruct Hcase as [-> _].
Qed.

Lemma convertFields_object d h w h' key nm a mo :
  h0 `prefix_of` h → h !! p = Some (CObj w) →
  NoDup d.*1 → (key, nm) ∈ d →
  m !! key = Some (VRef a) → h0 !! a = Some (CObj mo) →
  convertFields self h (VRef l) p d = Ret h' () →
  ∃ w' r, h' !! p = Some (CObj w') ∧ w' !! key = Some r
    ∧ ∃ ha hb, h0 `prefix_of` ha ∧ self ha (VRef a) nm = Ret hb r.
Proof using self_grows input_cell fresh_copy.
  intros Hp Hw Hnd Hin Hkey Ha. revert h w Hp Hw Hnd Hin.
  induction d as [|[k n] rest IH]; intros h w Hp Hw Hnd Hin Hrun.
  { by apply elem_of_nil in Hin. }
  simpl in Hnd. apply NoDup_cons in Hnd as [Hfresh Hnd].
  destruct (convertFields_step self self_grows _ _ _ _ _ _ _ _ _ Hp fresh_copy Hw Hrun)
    as (v & h2 & w2 & Hget & Hp2 & Hw2 & Hrest & Hcase).
  apply elem_of_cons in Hin as [[= <- <-]|Hin]; [|by eapply (IH h2 w2)].
  rewrite (get_object h l m key) in Hget by by eapply prefix_lookup_Some.
  rewrite Hkey in Hget. injection Hget as <-.
  assert (arrayItems h (VRef a) = None) as Harr.
  { simpl. by rewrite (prefix_lookup_Some _ _ _ _ Ha Hp). }
  rewrite Harr in Hcase. cbn [typeofObject] in Hcase.
  destruct Hcase as (h1 & r & Hr & ->).
  destruct (convertFields_untouched self self_grows h0 h2 (VRef l) p rest _ h' Hp2
              fresh_copy Hw2 Hrest) as (w' & _ & Hw' & Heq).
  exists w', r. split_and!; [done| |by exists h, h1].
  by rewrite Heq, lookup_insert_eq.
Qed.
End loop_object.

(** X6.  Conversion neither adds nor removes a key: when [fromJS] returns
    on an object, the working copy handed to the factory has exactly the
    keys of the object. *)
Theorem fromJS_working_copy_keys fuel h l m facTree facName h' r :
  h !! l = Some (CObj m) →
  fromJS (S fuel) h (VRef l) facTree facName = Ret h' r →
  ∃ w, h' !! length h = Some (CObj w) ∧ dom w = dom m.
Proof.
  intros Hl Hrun.
  apply fromJS_Ret_inv in Hrun as (e & facRef & p & He & Hf & Hb & Hr).
  apply buildPartial_Ret_inv in Hb as [-> Hb].
  assert (ownProps h (VRef l) = m) as Hown by (simpl; by rewrite Hl).
  rewrite Hown in Hb. destruct (descriptor e) as [d|].
  - by apply (convertFields_keys _ (λ hx v n, fromJS_grows fuel hx v facTree n)
                h l (length h) m Hl (le_n _) d (h ++ [CObj m]) m h');
      [apply prefix_snoc|apply lookup_snoc_new|..].
  - subst h'. exists m. split; [apply lookup_snoc_new|done].
Qed.

Lemma fromJS_working_copy_keys_witness :
  let m : gmap string value := list_to_map [("name", VStr "Ann"); ("pets", VRef 4)] in
  ex_store !! 3 = Some (CObj m)
  ∧ fromJS 3 ex_store (VRef 3) (registry ex_schema) "person" = Ret ex_final ex_record
  ∧ ∃ w, ex_final !! length ex_store = Some (CObj w) ∧ dom w = dom m.
Proof.
  intros m.
  assert (H1 : ex_store !! 3 = Some (CObj m)) by reflexivity.
  split_and!; [done|exact ex_run|].
  exact (fromJS_working_copy_keys 2 ex_store 3 m (registry ex_schema) "person"
           ex_final ex_record H1 ex_run).
Defined.

(** X8.  A descriptor field that holds an object becomes, in the working
    copy handed to the factory, the result of converting that object once
    with the nested factory name. *)
Theorem fromJS_object_field fuel h l m facTree facName e d key nm a mo h' r :
  h !! l = Some (CObj m) →
  facTree !! facName = Some e → descriptor e = Some d →
  NoDup d.*1 → (key, nm) ∈ d →
  m !! key = Some (VRef a) → h !! a = Some (CObj mo) →
  fromJS (S fuel) h (VRef l) facTree facName = Ret h' r →
  ∃ facRef w r',
    factory_of e = Some facRef
    ∧ h' !! length h = Some (CObj w)
    ∧ facRef h' (VRef (length h)) = inr r
    ∧ w !! key = Some r'
    ∧ ∃ ha hb, h `prefix_of` ha ∧ fromJS fuel ha (VRef a) facTree nm = Ret hb r'.
Proof.
  intros Hl He Hd Hnd Hin Hkey Ha Hrun.
  apply fromJS_Ret_inv in Hrun as (e' & facRef & p & He' & Hf & Hb & Hr).
  assert (e' = e) as -> by congruence.
  apply buildPartial_Ret_inv in Hb as [-> Hb]. rewrite Hd in Hb.
  assert (ownProps h (VRef l) = m) as Hown by (simpl; by rewrite Hl).
  rewrite Hown in Hb.
  destruct (convertFields_object _ (λ hx v n, fromJS_grows fuel hx v facTree n)
              h l (length h) m Hl (le_n _) d (h ++ [CObj m]) m h' key nm a mo)
    as (w & r' & Hw & Hk & Hconv);
    [apply prefix_snoc|apply lookup_snoc_new|done..|].
  by exists facRef, w, r'.
Qed.

Lemma fromJS_object_field_witness :
  let m : gmap string value := list_to_map [("name", VStr "Ann"); ("master", VRef 4)] in
  let mo : gmap string value := list_to_map [("name", VStr "Bob")] in
  let bob := rec_of [("name", VStr "Bob"); ("pet", VRef 1); ("master", VNull)] in
  let h' := doc_store ++ [ obj_of [("name", VStr "Ann"); ("master", bob)];
                           obj_of [("name", VStr "Bob")] ] in
  let r := rec_of [("name", VStr "Ann"); ("pet", VRef 1); ("master", bob)] in
  let e := Entry (Some [("pet", "pet"); ("master", "person")])
                 (Some (makeTypedFactory (VRef 0) None)) in
  fromJS 2 doc_store (VRef 3) (registry doc_schema) "person" = Ret h' r
  ∧ ∃ facRef w r',
      factory_of e = Some facRef
      ∧ h' !! length doc_store = Some (CObj w)
      ∧ facRef h' (VRef (length doc_store)) = inr r
      ∧ w !! "master" = Some r'
      ∧ ∃ ha hb, doc_store `prefix_of` ha
          ∧ fromJS 1 ha (VRef 4) (registry doc_schema) "person" = Ret hb r'.
Proof.
  intros m mo bob h' r e.
  assert (H1 : fromJS 2 doc_store (VRef 3) (registry doc_schema) "person" = Ret h' r)
    by by_computation.
  split; [done|].
  apply (fromJS_object_field 1 doc_store 3 m (registry doc_schema) "person" e
           [("pet", "pet"); ("master", "person")] "master" "person" 4 mo h' r).
  - reflexivity.
  - by_computation.
  - reflexivity.
  - simpl. apply NoDup_cons. split; [|apply NoDup_singleton].
    intros Hin%list_elem_of_singleton. discriminate Hin.
  - apply list_elem_of_further, list_elem_of_here.
  - by_computation.
  - reflexivity.
  - exact H1.
Defined.

(** ** [fromJS] over typed factories *)

(** X7.  With a factory made by [makeTypedFactory] the result of [fromJS]
    on an object is a record with exactly the keys of the template.  Under
    a key that is outside the descriptor, or whose value in the object is
    not of type object, the record holds the object's value if the key is
    present in the object and the template's default if it is not; keys of
    the object that the template does not have are dropped. *)
Theorem fromJS_typed_record s fuel h l m name sc t h' r :
  s !! name = Some sc → h !! template sc = Some (CObj t) →
  h !! l = Some (CObj m) →
  fromJS (S fuel) h (VRef l) (registry s) name = Ret h' r →
  ∃ w, r = VRec w ∧ dom w = dom t
       ∧ ∀ k d, t !! k = Some d →
           k ∉ (default [] (nested sc)).*1
           ∨ typeofObject (default VUndef (m !! k)) = false →
           w !! k = Some (default d (m !! k)).
Proof.
  intros Hs Ht Hl Hrun.
  destruct (fromJS_working_copy _ _ _ _ _ _ _ _ Hl Hrun)
    as (e & facRef & w & He & Hf & Hp & Hw & Hr & Hkeys).
  rewrite (registry_lookup s name sc Hs) in He. injection He as <-.
  injection Hf as <-.
  rewrite (makeTypedFactory_plain h' (template sc) t None (length h) w) in Hr;
    [|by eapply prefix_lookup_Some|done].
  injection Hr as <-. exists (merge pick t w). split_and!; [done|apply merge_pick_dom|].
  intros k d Hk Hcase. rewrite merge_pick_lookup, Hk. simpl.
  by rewrite (Hkeys k Hcase).
Qed.

Lemma fromJS_typed_record_witness :
  let m : gmap string value := list_to_map [("name", VStr "Bob")] in
  let t : gmap string value :=
    list_to_map [("name", VStr ""); ("pet", VRef 1); ("master", VNull)] in
  let h' := doc_store ++ [ obj_of [("name", VStr "Bob")] ] in
  let r := rec_of [("name", VStr "Bob"); ("pet", VRef 1); ("master", VNull)] in
  let sc := Schema 0 (Some [("pet", "pet"); ("master", "person")]) in
  doc_schema !! "person" = Some sc
  ∧ doc_store !! template sc = Some (CObj t)
  ∧ doc_store !! 4 = Some (CObj m)
  ∧ fromJS 1 doc_store (VRef 4) (registry doc_schema) "person" = Ret h' r
  ∧ ∃ w, r = VRec w ∧ dom w = dom t
         ∧ ∀ k d, t !! k = Some d →
             k ∉ (default [] (nested sc)).*1
             ∨ typeofObject (default VUndef (m !! k)) = false →
             w !! k = Some (default d (m !! k)).
Proof.
  intros m t h' r sc.
  assert (H1 : doc_schema !! "person" = Some sc) by by_computation.
  assert (H2 : doc_store !! template sc = Some (CObj t)) by reflexivity.
  assert (H3 : doc_store !! 4 = Some (CObj m)) by reflexivity.
  assert (H4 : fromJS 1 doc_store (VRef 4) (registry doc_schema) "person" = Ret h' r)
    by by_computation.
  split_and!; [done..|].
  exact (fromJS_typed_record doc_schema 0 doc_store 4 m "person" sc t h' r H1 H2 H3 H4).
Defined.
